(** * Interleaved forward fixpoint iterator

    A shallow embedding of
    [core/include/ikos/core/fixpoint/fwd_fixpoint_iterator.hpp]:
    the invariant tables, the WTO iteration driver ([WtoIterator]), the
    post-processor ([WtoProcessor]) and [run].

    - The two [std::unordered_map] invariant tables are [gmap]s; the lazy
      insertion performed by [get] is kept, so every read threads the
      tables.
    - The abstract domain, the graph traits and the virtual hooks of the
      iterator are type classes; the base-class bodies of the four
      overridable hooks are the [default_*] definitions.
    - The cycle loop [for (unsigned iteration = 1;; ++iteration)] has no
      exit but [break]; it is modelled with a bound on the number of
      passes, [None] meaning that the bound was reached. *)

From stdpp Require Import gmap list.
From Stdlib Require Import NArith Wellfounded.

Set Default Proof Using "Type".
Set Warnings "-register-all".

(** ** Interfaces *)

(** The operations the iterator uses on [AbstractValue].  The in-place
    methods [a.op_with(b)] are functions returning the new receiver. *)
Class AbstractValue (V : Type) := {
  bottom : V;
  leq : V → V → bool;
  join_with : V → V → V;
  join_loop_with : V → V → V;
  join_iter_with : V → V → V;
  widen_with : V → V → V;
  narrow_with : V → V → V;
}.

(** [GraphTrait::entry] and the range
    [predecessor_begin(node) .. predecessor_end(node)]. *)
Class GraphTrait (Node : Type) := {
  entry : Node;
  predecessors : Node → list Node;
}.

(** A WTO component: [WtoVertex] or [WtoCycle] (head and body). *)
Inductive component (Node : Type) : Type :=
  | Vertex (node : Node)
  | Cycle (head : Node) (body : list (component Node)).
Arguments Vertex {Node} node.
Arguments Cycle {Node} head body.

(** The part of [Wto] the iterator uses: the top-level components, which
    [accept] walks in order, and [nesting]. *)
Record Wto (Node : Type) := {
  components : list (component Node);
  nesting : Node → list Node;
}.
Arguments components {Node} w.
Arguments nesting {Node} w node.

(** Modelled from the spec: [WtoNesting::operator>] is declared in
    [wto.hpp], which is not part of the sources at hand.  A nesting is
    the list of enclosing cycle heads, outermost first, and [a > b] holds
    when [b] is a strict prefix of [a]. *)
Fixpoint nesting_gt {Node : Type} `{EqDecision Node} (a b : list Node) : bool :=
  match b, a with
  | [], [] => false
  | [], _ :: _ => true
  | _ :: _, [] => false
  | y :: b', x :: a' => if decide (x = y) then nesting_gt a' b' else false
  end.

(** The methods of the iterator that a client analysis supplies or
    overrides: [analyze_node] and [analyze_edge] are pure virtual in the
    base class, the other four are virtual with a default body. *)
Class Analyzer (V Node : Type) := {
  analyze_node : Node → V → V;
  analyze_edge : Node → Node → V → V;
  extrapolate : Node → N → V → V → V;
  is_increasing_iterations_fixpoint : V → V → bool;
  refine : Node → N → V → V → V;
  is_decreasing_iterations_fixpoint : V → V → bool;
}.

(** ** Default hooks *)

Section Defaults.
Context {V Node : Type} {D : AbstractValue V}.

Definition default_extrapolate (head : Node) (iteration : N)
    (before after : V) : V :=
  if (iteration <=? 1)%N then join_iter_with before after
  else widen_with before after.

Definition default_is_increasing_iterations_fixpoint (before after : V) : bool :=
  leq after before.

Definition default_refine (head : Node) (iteration : N)
    (before after : V) : V :=
  narrow_with before after.

Definition default_is_decreasing_iterations_fixpoint (before after : V) : bool :=
  leq before after.

(** An iterator that overrides none of the four hooks. *)
Definition base_analyzer (node : Node → V → V) (edge : Node → Node → V → V)
    : Analyzer V Node :=
  {| analyze_node := node;
     analyze_edge := edge;
     extrapolate := default_extrapolate;
     is_increasing_iterations_fixpoint := default_is_increasing_iterations_fixpoint;
     refine := default_refine;
     is_decreasing_iterations_fixpoint := default_is_decreasing_iterations_fixpoint |}.
End Defaults.

(** ** Invariant tables *)

(** The iterator's two tables [_pre] and [_post]. *)
Record state (V Node : Type) `{Countable Node} := {
  st_pre : gmap Node V;
  st_post : gmap Node V;
}.
Arguments st_pre {V Node _ _} s.
Arguments st_post {V Node _ _} s.
Arguments Build_state {V Node _ _} st_pre st_post.

(** The calls [process_pre(node, inv)] and [process_post(node, inv)] made
    by the post-processor, in the order they are made. *)
Inductive event (V Node : Type) : Type :=
  | ProcessPre (node : Node) (inv : V)
  | ProcessPost (node : Node) (inv : V).
Arguments ProcessPre {V Node} node inv.
Arguments ProcessPost {V Node} node inv.

Inductive IterationKind := Increasing | Decreasing.

(** How one pass of the cycle loop ends: [break] after storing the
    refined value, or the next pass with its kind, counter and [pre]. *)
Inductive pass_end (V : Type) : Type :=
  | Break (new_pre : V)
  | Continue (kind : IterationKind) (iteration : N) (pre : V).
Arguments Break {V} new_pre.
Arguments Continue {V} kind iteration pre.

(** [++iteration] on an [unsigned]. *)
Definition incr (iteration : N) : N := ((iteration + 1) mod 2 ^ 32)%N.

Section Iterator.
Context {V Node : Type} `{Countable Node}.
Context {D : AbstractValue V} {G : GraphTrait Node} {A : Analyzer V Node}.
Variable wto : Wto Node.

Abbreviation table := (gmap Node V).
Abbreviation state := (state V Node).

(** [set(table, node, inv)] *)
Definition set (tbl : table) (node : Node) (inv : V) : table :=
  match tbl !! node with
  | Some _ => alter (λ _, inv) node tbl
  | None => <[node := inv]> tbl
  end.

Definition set_pre (node : Node) (inv : V) (st : state) : state :=
  Build_state (set (st_pre st) node inv) (st_post st).

Definition set_post (node : Node) (inv : V) (st : state) : state :=
  Build_state (st_pre st) (set (st_post st) node inv).

(** [get(table, node)]: the stored value, or [bottom] after inserting
    it. *)
Definition get (tbl : table) (node : Node) : V * table :=
  match tbl !! node with
  | Some inv => (inv, tbl)
  | None => (bottom, <[node := bottom]> tbl)
  end.

Definition pre (node : Node) (st : state) : V * state :=
  let '(inv, tbl) := get (st_pre st) node in
  (inv, Build_state tbl (st_post st)).

Definition post (node : Node) (st : state) : V * state :=
  let '(inv, tbl) := get (st_post st) node in
  (inv, Build_state (st_pre st) tbl).

(** [clear()] *)
Definition clear (st : state) : state := Build_state ∅ ∅.

(** *** WtoIterator *)

(** The loop over the predecessors of [node] that joins
    [analyze_edge(pred, node, post(pred))] into [inv] for the
    predecessors selected by [keep]. *)
Fixpoint collect (keep : Node → bool) (node : Node) (preds : list Node)
    (inv : V) (st : state) : V * state :=
  match preds with
  | [] => (inv, st)
  | pred :: preds' =>
      if keep pred then
        let '(p, st') := post pred st in
        collect keep node preds' (join_with inv (analyze_edge pred node p)) st'
      else collect keep node preds' inv st
  end.

(** [nesting(pred) > cycle_nesting] *)
Definition is_back_edge (head pred : Node) : bool :=
  nesting_gt (nesting wto pred) (nesting wto head).

Definition is_incoming (head pred : Node) : bool :=
  negb (is_back_edge head pred).

(** [visit(const WtoVertexT&)] *)
Definition visit_vertex (node : Node) (st : state) : state :=
  let '(pre0, st) :=
    if decide (node = entry) then pre node st else (bottom, st) in
  let '(pre1, st) := collect (λ _, true) node (predecessors node) pre0 st in
  let st := set_pre node pre1 st in
  set_post node (analyze_node node pre1) st.

(** The end of a pass of the cycle loop, from [if (kind == Increasing)]
    to the closing brace of the loop, and the [++iteration] that
    follows when the loop goes on. *)
Definition cycle_update (head : Node) (kind : IterationKind)
    (iteration : N) (pre new_pre : V) : pass_end V :=
  let '(kind, iteration, pre) :=
    match kind with
    | Increasing =>
        if is_increasing_iterations_fixpoint pre new_pre
        then (Decreasing, 1%N, pre)
        else (Increasing, iteration, extrapolate head iteration pre new_pre)
    | Decreasing => (Decreasing, iteration, pre)
    end in
  match kind with
  | Decreasing =>
      let new_pre := refine head iteration pre new_pre in
      if is_decreasing_iterations_fixpoint pre new_pre
      then Break new_pre
      else Continue Decreasing (incr iteration) new_pre
  | Increasing => Continue Increasing (incr iteration) pre
  end.

(** The fixpoint iterations of [visit(const WtoCycleT&)]; [visit_body]
    visits the components of the cycle and [fuel] bounds the number of
    passes. *)
Fixpoint cycle_loop (visit_body : state → option state) (head : Node)
    (fuel : nat) (kind : IterationKind) (iteration : N) (pre : V)
    (st : state) : option state :=
  match fuel with
  | O => None
  | S fuel' =>
      let st := set_pre head pre st in
      let st := set_post head (analyze_node head pre) st in
      match visit_body st with
      | None => None
      | Some st =>
          let '(new_pre_in, st) :=
            collect (is_incoming head) head (predecessors head) bottom st in
          let '(new_pre_back, st) :=
            collect (is_back_edge head) head (predecessors head) bottom st in
          let new_pre := join_loop_with new_pre_in new_pre_back in
          match cycle_update head kind iteration pre new_pre with
          | Break new_pre => Some (set_pre head new_pre st)
          | Continue kind' iteration' pre' =>
              cycle_loop visit_body head fuel' kind' iteration' pre' st
          end
      end
  end.

(** Visiting components one after the other. *)
Definition visit_seq (visit : component Node → state → option state)
    : list (component Node) → state → option state :=
  fix go (cs : list (component Node)) (st : state) : option state :=
    match cs with
    | [] => Some st
    | c :: cs' =>
        match visit c st with
        | None => None
        | Some st' => go cs' st'
        end
    end.

(** [component.accept(WtoIterator)]; every cycle loop started during
    the visit makes at most [fuel] passes. *)
Fixpoint visit (fuel : nat) (c : component Node) (st : state)
    : option state :=
  match c with
  | Vertex node => Some (visit_vertex node st)
  | Cycle head body =>
      let '(pre0, st) :=
        collect (is_incoming head) head (predecessors head) bottom st in
      cycle_loop (visit_seq (visit fuel) body) head fuel Increasing 1%N pre0 st
  end.

(** [_wto.accept(iterator)] *)
Definition iterate (fuel : nat) (st : state) : option state :=
  visit_seq (visit fuel) (components wto) st.

(** *** WtoProcessor *)

(** The two calls made for a node. *)
Definition process_node (node : Node) (st : state)
    : list (event V Node) * state :=
  let '(i, st) := pre node st in
  let '(o, st) := post node st in
  ([ProcessPre node i; ProcessPost node o], st).

Fixpoint process (c : component Node) (st : state)
    : list (event V Node) * state :=
  match c with
  | Vertex node => process_node node st
  | Cycle head body =>
      let '(tr, st) := process_node head st in
      (fix go (cs : list (component Node)) (tr : list (event V Node))
           (st : state) : list (event V Node) * state :=
         match cs with
         | [] => (tr, st)
         | c :: cs' => let '(tr', st') := process c st in go cs' (tr ++ tr') st'
         end) body tr st
  end.

(** [_wto.accept(processor)] *)
Fixpoint process_seq (cs : list (component Node)) (tr : list (event V Node))
    (st : state) : list (event V Node) * state :=
  match cs with
  | [] => (tr, st)
  | c :: cs' => let '(tr', st') := process c st in process_seq cs' (tr ++ tr') st'
  end.

(** [run(init)]: the final tables and the calls received by the
    sinks. *)
Definition run (fuel : nat) (init : V) (st : state)
    : option (state * list (event V Node)) :=
  let st := set_pre entry init st in
  match iterate fuel st with
  | None => None
  | Some st =>
      let '(tr, st) := process_seq (components wto) [] st in
      Some (st, tr)
  end.

End Iterator.

(** ** What the tables mean, and the shape of a WTO *)

Section Reading.
Context {V Node : Type} `{Countable Node}.
Context {D : AbstractValue V} {G : GraphTrait Node} {A : Analyzer V Node}.

(** The total map a table stands for: the stored value, [bottom] for a
    node that has no entry. *)
Definition content (tbl : gmap Node V) (node : Node) : V :=
  default bottom (tbl !! node).

Definition pre_of (st : state V Node) (node : Node) : V :=
  content (st_pre st) node.

Definition post_of (st : state V Node) (node : Node) : V :=
  content (st_post st) node.

(** Two states that no sequence of reads can tell apart. *)
Definition same_content (st1 st2 : state V Node) : Prop :=
  ∀ node, pre_of st1 node = pre_of st2 node ∧ post_of st1 node = post_of st2 node.

(** The join into [inv] of [analyze_edge(p, node, post(p))] over the
    predecessors [p] of [node] selected by [keep], in the order of the
    predecessor range, with [post] read in [st]. *)
Definition join_edges (keep : Node → bool) (node : Node)
    (st : state V Node) (inv : V) : V :=
  foldl (λ acc p, join_with acc (analyze_edge p node (post_of st p)))
        inv (List.filter keep (predecessors node)).

(** The nodes of a component in pre-order: the head of a cycle, then its
    body from left to right. *)
Fixpoint nodes_of (c : component Node) : list Node :=
  match c with
  | Vertex node => [node]
  | Cycle head body => head :: concat (map nodes_of body)
  end.

Definition nodes_of_seq (cs : list (component Node)) : list Node :=
  concat (map nodes_of cs).

(** The nodes visited as a [WtoVertex]. *)
Fixpoint vertices_of (c : component Node) : list Node :=
  match c with
  | Vertex node => [node]
  | Cycle head body => concat (map vertices_of body)
  end.

Definition vertices_of_seq (cs : list (component Node)) : list Node :=
  concat (map vertices_of cs).

(** The heads of the cycles. *)
Fixpoint heads_of (c : component Node) : list Node :=
  match c with
  | Vertex node => []
  | Cycle head body => head :: concat (map heads_of body)
  end.

Definition heads_of_seq (cs : list (component Node)) : list Node :=
  concat (map heads_of cs).

(** The value a vertex visit computes for [pre(node)]: the stored value
    for the entry node and [bottom] for any other node, joined with the
    contribution of every predecessor. *)
Definition vertex_pre (node : Node) (st : state V Node) : V :=
  join_edges (λ _, true) node st
    (if decide (node = entry) then pre_of st node else bottom).

(** The tables after the two predecessor loops that close a pass of the
    cycle loop. *)
Definition after_joins (wto : Wto Node) (head : Node) (st : state V Node)
    : state V Node :=
  (collect (is_back_edge wto head) head (predecessors head) bottom
     (collect (is_incoming wto head) head (predecessors head) bottom st).2).2.

(** The calls the sinks receive for the nodes [ns] when the tables hold
    [st]. *)
Definition sink_calls (st : state V Node) (ns : list Node) : list (event V Node) :=
  concat (map (λ n, [ProcessPre n (pre_of st n); ProcessPost n (post_of st n)]) ns).

(** The stored post of [n] is the transfer function applied to its
    stored pre. *)
Definition consistent (n : Node) (st : state V Node) : Prop :=
  post_of st n = analyze_node n (pre_of st n).

(** What a cycle visit leaves for its head: the post computed from the
    [pre] of the last pass, and as pre the value refined from that [pre],
    which the decreasing-fixpoint test accepted. *)
Definition refined_head (h : Node) (st : state V Node) : Prop :=
  ∃ i v new_pre,
    post_of st h = analyze_node h v
    ∧ pre_of st h = refine h i v new_pre
    ∧ is_decreasing_iterations_fixpoint v (refine h i v new_pre) = true.

(** The invariants read off the result of [run], when it returns. *)
Definition final_pre (r : option (state V Node * list (event V Node)))
    (n : Node) : option V :=
  option_map (λ x, pre_of x.1 n) r.

Definition final_post (r : option (state V Node * list (event V Node)))
    (n : Node) : option V :=
  option_map (λ x, post_of x.1 n) r.

(** [b] is strictly above [a]: a step of an ascending chain. *)
Definition strictly_above (b a : V) : Prop :=
  leq a b = true ∧ leq b a = false.

(** [b] is a narrowing of [a] that the default decreasing-fixpoint test
    rejects: a step of a decreasing iteration that goes on. *)
Definition narrows_strictly (b a : V) : Prop :=
  ∃ x, b = narrow_with a x ∧ leq a b = false.

(** A domain with no infinite ascending chain whose widening is the
    join: the order is transitive, [join] and [join_iter] give upper
    bounds, [widen] is [join]. *)
Definition widening_free : Prop :=
  (∀ a b c : V, leq a b = true → leq b c = true → leq a c = true)
  ∧ (∀ a b : V, leq a (join_with a b) = true ∧ leq b (join_with a b) = true)
  ∧ (∀ a b : V, leq a (join_iter_with a b) = true
                ∧ leq b (join_iter_with a b) = true)
  ∧ (∀ a b : V, widen_with a b = join_with a b)
  ∧ well_founded strictly_above.

Definition monotone (f : V → V) : Prop :=
  ∀ a b, leq a b = true → leq (f a) (f b) = true.

Definition monotone2 (f : V → V → V) : Prop :=
  ∀ a a' b b', leq a a' = true → leq b b' = true → leq (f a b) (f a' b') = true.

(** Every callback of the analysis is monotone. *)
Definition monotone_callbacks : Prop :=
  (∀ n, monotone (analyze_node n))
  ∧ (∀ p n, monotone (analyze_edge p n))
  ∧ (∀ h i, monotone2 (extrapolate h i))
  ∧ (∀ h i, monotone2 (refine h i)).

(** The tables of [st1] are below those of [st2] at every node. *)
Definition below (st1 st2 : state V Node) : Prop :=
  ∀ n, leq (pre_of st1 n) (pre_of st2 n) = true
       ∧ leq (post_of st1 n) (post_of st2 n) = true.

(** The predecessors of the nodes of a sequence of components. *)
Definition preds_of_seq (cs : list (component Node)) : list Node :=
  concat (map predecessors (nodes_of_seq cs)).

(** Every node comes after its predecessors: no predecessor of a node is
    the node itself or a later one. *)
Fixpoint scheduled (ns : list Node) : Prop :=
  match ns with
  | [] => True
  | n :: rest => (∀ p, p ∈ predecessors n → p ∉ n :: rest) ∧ scheduled rest
  end.

(** The equations of the analysis at [n]: the pre invariant is [init]
    at the entry and bottom elsewhere, joined with the contribution of
    every predecessor, and the post invariant is its transfer. *)
Definition solves (init : V) (st : state V Node) (n : Node) : Prop :=
  pre_of st n
    = foldl (λ acc p, join_with acc (analyze_edge p n (post_of st p)))
            (if decide (n = entry) then init else bottom) (predecessors n)
  ∧ post_of st n = analyze_node n (pre_of st n).

(** The candidate a pass of the loop of head [h] computes from the
    tables [st]. *)
Definition candidate (wto : Wto Node) (h : Node) (st : state V Node) : V :=
  join_loop_with (join_edges (is_incoming wto h) h st bottom)
                 (join_edges (is_back_edge wto h) h st bottom).

(** Two states that differ at most in the pre invariant of the entry
    node. *)
Definition same_but_entry_pre (st1 st2 : state V Node) : Prop :=
  ∀ n, post_of st1 n = post_of st2 n
       ∧ (n ≠ entry → pre_of st1 n = pre_of st2 n).

(** Every invariant is bottom. *)
Definition all_bottom (st : state V Node) : Prop :=
  ∀ n, pre_of st n = bottom ∧ post_of st n = bottom.

(** The tables of [r] have every key of the tables of [s]. *)
Definition grows (s r : state V Node) : Prop :=
  dom (st_pre s) ⊆ dom (st_pre r) ∧ dom (st_post s) ⊆ dom (st_post r).

(** The tables hold an entry for the pre and the post of [n] and for the
    post of every predecessor of [n]. *)
Definition stored (n : Node) (st : state V Node) : Prop :=
  n ∈ dom (st_pre st) ∧ n ∈ dom (st_post st)
  ∧ ∀ p, p ∈ predecessors n → p ∈ dom (st_post st).

(** Two states that agree on the pre invariant of the entry node and on
    both invariants of the nodes in [seen]. *)
Definition agree_on (seen : list Node) (s1 s2 : state V Node) : Prop :=
  pre_of s1 entry = pre_of s2 entry
  ∧ ∀ n, n ∈ seen → pre_of s1 n = pre_of s2 n ∧ post_of s1 n = post_of s2 n.

(** Every read of the visit of [c] finds a value written earlier in the
    traversal, when the nodes in [seen] have been visited: the
    predecessors of a vertex have been visited; the predecessors of a head
    that are read before the loop have been visited, and those read only
    at the end of a pass are the head or nodes of its body. *)
Fixpoint closed (wto : Wto Node) (seen : list Node) (c : component Node) : Prop :=
  match c with
  | Vertex n => ∀ p, p ∈ predecessors n → p ∈ seen
  | Cycle h body =>
      (∀ p, p ∈ predecessors h →
         if is_back_edge wto h p then p ∈ h :: concat (map nodes_of body)
         else p ∈ seen)
      ∧ (fix go (seen : list Node) (cs : list (component Node)) : Prop :=
           match cs with
           | [] => True
           | c :: cs' => closed wto seen c ∧ go (nodes_of c ++ seen) cs'
           end) (h :: seen) body
  end.

Definition closed_seq (wto : Wto Node)
    : list Node → list (component Node) → Prop :=
  fix go (seen : list Node) (cs : list (component Node)) : Prop :=
    match cs with
    | [] => True
    | c :: cs' => closed wto seen c ∧ go (nodes_of c ++ seen) cs'
    end.

End Reading.

(** ** Example domains, graphs and analyses *)

(** An upper bound on a counter that starts at zero: no value, at most
    [n], or unbounded. *)
Inductive ub : Type := Bot | Fin (n : nat) | Inf.

Definition ub_leq (a b : ub) : bool :=
  match a, b with
  | Bot, _ => true
  | _, Inf => true
  | Fin x, Fin y => x <=? y
  | _, _ => false
  end.

Definition ub_join (a b : ub) : ub :=
  match a, b with
  | Bot, x | x, Bot => x
  | Fin x, Fin y => Fin (x `max` y)
  | _, _ => Inf
  end.

Definition ub_meet (a b : ub) : ub :=
  match a, b with
  | Bot, _ | _, Bot => Bot
  | Inf, x | x, Inf => x
  | Fin x, Fin y => Fin (x `min` y)
  end.

(** The usual widening of a bound that is not stable, and the narrowing
    that only improves an unbounded value. *)
Definition ub_widen (a b : ub) : ub := if ub_leq b a then a else Inf.

Definition ub_narrow (a b : ub) : ub :=
  match a with
  | Inf => b
  | _ => a
  end.

Definition ub_domain : AbstractValue ub :=
  {| bottom := Bot; leq := ub_leq; join_with := ub_join;
     join_loop_with := ub_join; join_iter_with := ub_join;
     widen_with := ub_widen; narrow_with := ub_narrow |}.

(** The same bounds with the widening that gives up at once and the meet
    as narrowing: every operation is monotone. *)
Definition ub_top_domain : AbstractValue ub :=
  {| bottom := Bot; leq := ub_leq; join_with := ub_join;
     join_loop_with := ub_join; join_iter_with := ub_join;
     widen_with := λ _ _, Inf; narrow_with := ub_meet |}.

(** The four subsets of a two-element set, with join as widening and a
    narrowing that returns the new value. *)
Inductive quad : Type := QBot | QA | QB | QTop.

Definition quad_leq (a b : quad) : bool :=
  match a, b with
  | QBot, _ | _, QTop | QA, QA | QB, QB => true
  | _, _ => false
  end.

Definition quad_join (a b : quad) : quad :=
  match a, b with
  | QBot, x | x, QBot => x
  | QA, QA => QA
  | QB, QB => QB
  | _, _ => QTop
  end.

Definition quad_domain : AbstractValue quad :=
  {| bottom := QBot; leq := quad_leq; join_with := quad_join;
     join_loop_with := quad_join; join_iter_with := quad_join;
     widen_with := quad_join; narrow_with := λ _ b, b |}.

(** Reachability: [false] is bottom. *)
Definition flag_domain : AbstractValue bool :=
  {| bottom := false; leq := implb; join_with := orb;
     join_loop_with := orb; join_iter_with := orb;
     widen_with := orb; narrow_with := andb |}.

(** Natural numbers under [max]; the narrowing keeps the old value. *)
Definition max_domain : AbstractValue nat :=
  {| bottom := 0; leq := Nat.leb; join_with := Nat.max;
     join_loop_with := Nat.max; join_iter_with := Nat.max;
     widen_with := Nat.max; narrow_with := λ a _, a |}.

(** [0 → 1 → 2]: a straight line. *)
Definition line_graph : GraphTrait nat :=
  {| entry := 0;
     predecessors := λ n, match n with 1 => [0] | 2 => [1] | _ => [] end |}.

Definition line_wto : Wto nat :=
  {| components := [Vertex 0; Vertex 1; Vertex 2]; nesting := λ _, [] |}.

(** [0 → 1 → 2 → 1]: the entry, then a loop with head [1] and body
    [2]. *)
Definition loop_graph : GraphTrait nat :=
  {| entry := 0;
     predecessors := λ n, match n with 1 => [0; 2] | 2 => [1] | _ => [] end |}.

Definition loop_wto : Wto nat :=
  {| components := [Vertex 0; Cycle 1 [Vertex 2]];
     nesting := λ n, match n with 2 => [1] | _ => [] end |}.

(** [0 → 1 → 2 → 3 → 2], [3 → 1]: an outer loop with head [1] around an
    inner loop with head [2] and body [3]. *)
Definition nested_graph : GraphTrait nat :=
  {| entry := 0;
     predecessors :=
       λ n, match n with 1 => [0; 3] | 2 => [1; 3] | 3 => [2] | _ => [] end |}.

Definition nested_wto : Wto nat :=
  {| components := [Vertex 0; Cycle 1 [Cycle 2 [Vertex 3]]];
     nesting := λ n, match n with 2 => [1] | 3 => [1; 2] | _ => [] end |}.

(** A single node with an edge to itself. *)
Definition self_graph : GraphTrait nat :=
  {| entry := 0; predecessors := λ n, match n with 0 => [0] | _ => [] end |}.

Definition self_wto : Wto nat :=
  {| components := [Cycle 0 []]; nesting := λ _, [] |}.

(** The entry [0] and a node [1] that no path from the entry reaches,
    with an edge [1 → 0]. *)
Definition orphan_graph : GraphTrait nat :=
  {| entry := 0; predecessors := λ n, match n with 0 => [1] | _ => [] end |}.

Definition orphan_wto : Wto nat :=
  {| components := [Vertex 0]; nesting := λ _, [] |}.

Definition ub_succ (a : ub) : ub :=
  match a with
  | Bot => Bot
  | Fin n => Fin (S n)
  | Inf => Inf
  end.

(** Every node adds one; edges change nothing. *)
Definition incr_analyzer : Analyzer ub nat :=
  base_analyzer (D:=ub_domain) (λ _ a, ub_succ a) (λ _ _ a, a).

(** [while (x <= 9) x++] on {!loop_graph}: node [2] is the guarded
    increment. *)
Definition guarded_incr (a : ub) : ub :=
  match a with
  | Bot => Bot
  | Fin n => Fin (S (n `min` 9))
  | Inf => Fin 10
  end.

Definition guard_node (n : nat) (a : ub) : ub :=
  match n with
  | 2 => guarded_incr a
  | _ => a
  end.

Definition guard_analyzer : Analyzer ub nat :=
  base_analyzer (D:=ub_domain) guard_node (λ _ _ a, a).

(** The same analysis in a client that stops the decreasing iterations
    after the first one. *)
Definition capped_analyzer : Analyzer ub nat :=
  {| analyze_node := guard_node;
     analyze_edge := λ _ _ a, a;
     extrapolate := default_extrapolate (D:=ub_domain);
     is_increasing_iterations_fixpoint :=
       default_is_increasing_iterations_fixpoint (D:=ub_domain);
     refine := default_refine (D:=ub_domain);
     is_decreasing_iterations_fixpoint := λ _ _, true |}.

(** [while (true) if (x <= 9) x++] on {!loop_graph}. *)
Definition step_below_ten (a : ub) : ub :=
  match a with
  | Fin n => if n <=? 9 then Fin (S n) else Fin n
  | _ => a
  end.

Definition saturating_node (n : nat) (a : ub) : ub :=
  match n with
  | 2 => step_below_ten a
  | _ => a
  end.

Definition saturating_analyzer : Analyzer ub nat :=
  base_analyzer (D:=ub_top_domain) saturating_node (λ _ _ a, a).

(** An edge that yields a bound of five whatever reaches it. *)
Definition five_edge_analyzer : Analyzer ub nat :=
  base_analyzer (D:=ub_domain) (λ _ a, a) (λ _ _ _, Fin 5).

(** A transfer function on {!quad} that is not monotone. *)
Definition swap (a : quad) : quad :=
  match a with
  | QBot => QTop
  | QTop => QA
  | QA => QB
  | QB => QA
  end.

Definition swap_analyzer : Analyzer quad nat :=
  base_analyzer (D:=quad_domain) (λ _ a, swap a) (λ _ _ a, a).

(** Counting up to [limit], one step per pass. *)
Definition counting_analyzer (limit : nat) : Analyzer nat nat :=
  base_analyzer (D:=max_domain) (λ _ a, S a `min` limit) (λ _ _ a, a).

Definition flag_analyzer : Analyzer bool nat :=
  base_analyzer (D:=flag_domain) (λ _ a, a) (λ _ _ a, a).

(** The tables of a new iterator. *)
Definition fresh {V Node : Type} `{Countable Node} : state V Node :=
  Build_state ∅ ∅.

(** Reachability in a client that overrides the hooks: it widens from the
    first pass on and makes no decreasing iteration. *)
Definition eager_analyzer : Analyzer bool nat :=
  {| analyze_node := λ _ a, a;
     analyze_edge := λ _ _ a, a;
     extrapolate := λ _ _ a b, widen_with (AbstractValue:=flag_domain) a b;
     is_increasing_iterations_fixpoint :=
       default_is_increasing_iterations_fixpoint (D:=flag_domain);
     refine := λ _ _ a _, a;
     is_decreasing_iterations_fixpoint := λ _ _, true |}.

(** ** Reasoning about the tables *)

Section TableFacts.
Context {V Node : Type} `{Countable Node}.
Context {D : AbstractValue V} {G : GraphTrait Node} {A : Analyzer V Node}.
Variable wto : Wto Node.

Implicit Types (tbl : gmap Node V) (st : state V Node) (n m : Node) (v : V).

(** Both branches of [set] leave the table with [node] bound to [inv]. *)
Lemma set_insert tbl n v : set tbl n v = <[n := v]> tbl.
Proof.
  unfold set. destruct (tbl !! n) as [old|] eqn:E; [|done].
  apply map_eq. intros k. rewrite lookup_alter, lookup_insert.
  destruct (decide (n = k)) as [->|]; [by rewrite E | done].
Qed.

Lemma content_set tbl n v m :
  content (set tbl n v) m = if decide (n = m) then v else content tbl m.
Proof.
  unfold content. rewrite set_insert, lookup_insert.
  by destruct (decide (n = m)).
Qed.

Lemma get_value tbl n : (get tbl n).1 = content tbl n.
Proof. unfold get, content. by destruct (tbl !! n). Qed.

Lemma get_content tbl n m : content (get tbl n).2 m = content tbl m.
Proof.
  unfold get, content. destruct (tbl !! n) eqn:E; [done|]. simpl.
  rewrite lookup_insert. destruct (decide (n = m)) as [<-|]; [|done].
  by rewrite E.
Qed.

Lemma pre_value n st : (pre n st).1 = pre_of st n.
Proof.
  unfold pre, pre_of. rewrite <- get_value. by destruct (get (st_pre st) n).
Qed.

Lemma post_value n st : (post n st).1 = post_of st n.
Proof.
  unfold post, post_of. rewrite <- get_value. by destruct (get (st_post st) n).
Qed.

Lemma pre_of_set_pre n v st m :
  pre_of (set_pre n v st) m = if decide (n = m) then v else pre_of st m.
Proof. apply content_set. Qed.

Lemma post_of_set_pre n v st m : post_of (set_pre n v st) m = post_of st m.
Proof. done. Qed.

Lemma pre_of_set_post n v st m : pre_of (set_post n v st) m = pre_of st m.
Proof. done. Qed.

Lemma post_of_set_post n v st m :
  post_of (set_post n v st) m = if decide (n = m) then v else post_of st m.
Proof. apply content_set. Qed.

#[global] Instance same_content_equiv : Equivalence (same_content (V:=V) (Node:=Node)).
Proof.
  split.
  - by intros st n.
  - intros s1 s2 E n. destruct (E n). by split.
  - intros s1 s2 s3 E1 E2 n. destruct (E1 n) as [-> ->]. apply E2.
Qed.

Lemma pre_same n st : same_content (pre n st).2 st.
Proof.
  intros m. unfold pre, pre_of, post_of.
  pose proof (get_content (st_pre st) n m) as E.
  destruct (get (st_pre st) n); simpl in *. by rewrite E.
Qed.

Lemma post_same n st : same_content (post n st).2 st.
Proof.
  intros m. unfold post, pre_of, post_of.
  pose proof (get_content (st_post st) n m) as E.
  destruct (get (st_post st) n); simpl in *. by rewrite E.
Qed.

Lemma set_pre_same n v st1 st2 :
  same_content st1 st2 → same_content (set_pre n v st1) (set_pre n v st2).
Proof.
  intros E m. rewrite !pre_of_set_pre, !post_of_set_pre.
  destruct (E m) as [-> ->]. done.
Qed.

Lemma set_post_same n v st1 st2 :
  same_content st1 st2 → same_content (set_post n v st1) (set_post n v st2).
Proof.
  intros E m. rewrite !post_of_set_post, !pre_of_set_post.
  destruct (E m) as [-> ->]. done.
Qed.

Lemma join_edges_same keep n st1 st2 v :
  same_content st1 st2 → join_edges keep n st1 v = join_edges keep n st2 v.
Proof.
  intros E. unfold join_edges. generalize (List.filter keep (predecessors n)).
  intros l. revert v. induction l as [|p l IH]; intros v; simpl; [done|].
  destruct (E p) as [_ ->]. apply IH.
Qed.

(** The predecessor loop computes the join over the selected
    predecessors of the values held by the table before the loop, and
    changes the content of no table. *)
Lemma collect_spec keep n ps v st :
  (collect keep n ps v st).1
    = foldl (λ acc p, join_with acc (analyze_edge p n (post_of st p)))
            v (List.filter keep ps)
  ∧ same_content (collect keep n ps v st).2 st.
Proof.
  revert v st. induction ps as [|p ps IH]; intros v st; simpl; [done|].
  destruct (keep p) eqn:K; simpl; [|apply IH].
  pose proof (post_value p st) as Ev. pose proof (post_same p st) as Es.
  destruct (post p st) as [x st']; simpl in *. subst x.
  destruct (IH (join_with v (analyze_edge p n (post_of st p))) st') as [-> E2].
  split; [|by etrans].
  generalize (join_with v (analyze_edge p n (post_of st p))).
  generalize (List.filter keep ps). intros l. induction l as [|q l IHl]; intros w; simpl; [done|].
  destruct (Es q) as [_ ->]. apply IHl.
Qed.

Lemma collect_value keep n v st :
  (collect keep n (predecessors n) v st).1 = join_edges keep n st v.
Proof. apply collect_spec. Qed.

Lemma collect_same keep n ps v st : same_content (collect keep n ps v st).2 st.
Proof. apply collect_spec. Qed.

End TableFacts.

(** ** The component tree *)

Section Traversal.
Context {V Node : Type} `{Countable Node}.
Context {D : AbstractValue V} {G : GraphTrait Node} {A : Analyzer V Node}.
Variable wto : Wto Node.

Implicit Types (st : state V Node) (n m h : Node) (v : V)
  (c : component Node) (cs body : list (component Node)).

(** Induction over a component and, for a cycle, over each component of
    its body. *)
Lemma component_ind' (P : component Node → Prop) :
  (∀ n, P (Vertex n)) →
  (∀ h body, Forall P body → P (Cycle h body)) →
  ∀ c, P c.
Proof.
  intros HV HC. fix IH 1. intros [n|h body]; [apply HV|].
  apply HC. induction body as [|c body IHb]; constructor; [apply IH|apply IHb].
Qed.

Lemma visit_cycle fuel h body st :
  visit wto fuel (Cycle h body) st =
    cycle_loop wto (visit_seq (visit wto fuel) body) h fuel Increasing 1%N
      (join_edges (is_incoming wto h) h st bottom)
      (collect (is_incoming wto h) h (predecessors h) bottom st).2.
Proof.
  simpl. rewrite <- collect_value.
  by destruct (collect (is_incoming wto h) h (predecessors h) bottom st).
Qed.

Lemma visit_seq_cons (f : component Node → state V Node → option (state V Node)) c cs st :
  visit_seq f (c :: cs) st =
    match f c st with None => None | Some st' => visit_seq f cs st' end.
Proof. done. Qed.

Lemma visit_seq_app (f : component Node → state V Node → option (state V Node)) cs1 cs2 st :
  visit_seq f (cs1 ++ cs2) st =
    match visit_seq f cs1 st with None => None | Some st' => visit_seq f cs2 st' end.
Proof.
  revert st. induction cs1 as [|c cs1 IH]; intros st; [done|].
  simpl. destruct (f c st); [apply IH|done].
Qed.

(** One pass of the cycle loop, with the two joins written over the
    content of the tables left by the visit of the body. *)
Lemma cycle_loop_pass (vb : state V Node → option (state V Node)) h k kind i v st :
  cycle_loop wto vb h (S k) kind i v st =
    match vb (set_post h (analyze_node h v) (set_pre h v st)) with
    | None => None
    | Some st2 =>
        match cycle_update h kind i v
                (join_loop_with (join_edges (is_incoming wto h) h st2 bottom)
                                (join_edges (is_back_edge wto h) h st2 bottom)) with
        | Break new_pre => Some (set_pre h new_pre (after_joins wto h st2))
        | Continue kind' i' v' =>
            cycle_loop wto vb h k kind' i' v' (after_joins wto h st2)
        end
    end.
Proof.
  simpl. destruct (vb _) as [st2|]; [|done]. unfold after_joins.
  pose proof (collect_value (is_incoming wto h) h bottom st2) as E1.
  pose proof (collect_same (is_incoming wto h) h (predecessors h) bottom st2) as S1.
  destruct (collect (is_incoming wto h) h (predecessors h) bottom st2) as [x s1].
  simpl in *. subst x.
  pose proof (collect_value (is_back_edge wto h) h bottom s1) as E2.
  destruct (collect (is_back_edge wto h) h (predecessors h) bottom s1) as [y s2].
  simpl in *. subst y. by rewrite (join_edges_same _ _ _ _ _ S1).
Qed.

Lemma after_joins_same h st : same_content (after_joins wto h st) st.
Proof. unfold after_joins. etrans; apply collect_same. Qed.

(** *** The vertex visit *)

Lemma visit_vertex_spec n st :
  ∃ st', same_content st' st ∧
    visit_vertex n st
      = set_post n (analyze_node n (vertex_pre n st)) (set_pre n (vertex_pre n st) st').
Proof.
  unfold visit_vertex, vertex_pre.
  destruct (decide (n = entry)) as [E|E].
  - pose proof (pre_value n st) as Ev. pose proof (pre_same n st) as Es.
    destruct (pre n st) as [x s1]; simpl in *. subst x.
    pose proof (collect_value (λ _, true) n (pre_of st n) s1) as Ec.
    pose proof (collect_same (λ _, true) n (predecessors n) (pre_of st n) s1) as Ec'.
    destruct (collect _ n (predecessors n) (pre_of st n) s1) as [y s2]; simpl in *.
    subst y. exists s2. split; [by etrans|].
    by rewrite (join_edges_same _ _ _ _ _ Es).
  - pose proof (collect_value (λ _, true) n bottom st) as Ec.
    pose proof (collect_same (λ _, true) n (predecessors n) bottom st) as Ec'.
    destruct (collect _ n (predecessors n) bottom st) as [y s2]; simpl in *.
    subst y. by exists s2.
Qed.

Lemma visit_vertex_pre n st m :
  pre_of (visit_vertex n st) m
    = if decide (n = m) then vertex_pre n st else pre_of st m.
Proof.
  destruct (visit_vertex_spec n st) as (st' & E & ->).
  rewrite pre_of_set_post, pre_of_set_pre. by destruct (E m) as [-> _].
Qed.

Lemma visit_vertex_post n st m :
  post_of (visit_vertex n st) m
    = if decide (n = m) then analyze_node n (vertex_pre n st) else post_of st m.
Proof.
  destruct (visit_vertex_spec n st) as (st' & E & ->).
  rewrite post_of_set_post, post_of_set_pre. by destruct (E m) as [_ ->].
Qed.

Lemma vertex_pre_same n st1 st2 :
  same_content st1 st2 → vertex_pre n st1 = vertex_pre n st2.
Proof.
  intros E. unfold vertex_pre. rewrite (join_edges_same _ _ _ _ _ E).
  by destruct (E n) as [-> _].
Qed.

Lemma visit_vertex_same n st1 st2 :
  same_content st1 st2 → same_content (visit_vertex n st1) (visit_vertex n st2).
Proof.
  intros E m. rewrite !visit_vertex_pre, !visit_vertex_post.
  rewrite (vertex_pre_same _ _ _ E). by destruct (E m) as [-> ->].
Qed.

(** *** The post-processor *)

Lemma sink_calls_same st1 st2 ns :
  same_content st1 st2 → sink_calls st1 ns = sink_calls st2 ns.
Proof.
  intros E. unfold sink_calls. f_equal. apply map_ext. intros n.
  by destruct (E n) as [-> ->].
Qed.

Lemma sink_calls_app st ns1 ns2 :
  sink_calls st (ns1 ++ ns2) = sink_calls st ns1 ++ sink_calls st ns2.
Proof. unfold sink_calls. by rewrite map_app, concat_app. Qed.

Lemma process_node_spec n st :
  (process_node n st).1 = sink_calls st [n] ∧ same_content (process_node n st).2 st.
Proof.
  unfold process_node, sink_calls.
  pose proof (pre_value n st) as Ev. pose proof (pre_same n st) as Es.
  destruct (pre n st) as [x s1]; simpl in *. subst x.
  pose proof (post_value n s1) as Ev'. pose proof (post_same n s1) as Es'.
  destruct (post n s1) as [y s2]; simpl in *. subst y.
  destruct (Es n) as [_ ->]. split; [done|by etrans].
Qed.

Lemma process_cycle h body st :
  process (Cycle h body) st =
    process_seq body (process_node h st).1 (process_node h st).2.
Proof. simpl. by destruct (process_node h st). Qed.

Lemma process_spec c st :
  (process c st).1 = sink_calls st (nodes_of c) ∧ same_content (process c st).2 st.
Proof.
  revert st. induction c as [n|h body IH] using component_ind'; intros st.
  { apply process_node_spec. }
  rewrite process_cycle. destruct (process_node_spec h st) as [E1 E2].
  destruct (process_node h st) as [tr s1]; simpl in *. subst tr.
  change (h :: concat (map nodes_of body)) with ([h] ++ concat (map nodes_of body)).
  rewrite sink_calls_app. rewrite (sink_calls_same _ _ (concat _) (symmetry E2)).
  assert (∀ tr s, (process_seq body tr s).1 = tr ++ sink_calls s (concat (map nodes_of body))
                  ∧ same_content (process_seq body tr s).2 s) as Hseq.
  { clear E2 st. induction IH as [|c body Hc _ IHb]; intros tr s; simpl.
    - split; [by rewrite app_nil_r|done].
    - destruct (Hc s) as [T1 T2]. destruct (process c s) as [tr' s']; simpl in *.
      subst tr'. destruct (IHb (tr ++ sink_calls s (nodes_of c)) s') as [-> T3].
      split; [|by etrans].
      rewrite sink_calls_app, (sink_calls_same _ _ (concat _) T2). by rewrite <- app_assoc. }
  destruct (Hseq (sink_calls st [h]) s1) as [-> E3]. split; [done|by etrans].
Qed.

Lemma process_seq_spec cs tr st :
  (process_seq cs tr st).1 = tr ++ sink_calls st (nodes_of_seq cs)
  ∧ same_content (process_seq cs tr st).2 st.
Proof.
  revert tr st. induction cs as [|c cs IH]; intros tr st; simpl.
  { split; [by rewrite app_nil_r|done]. }
  destruct (process_spec c st) as [T1 T2]. destruct (process c st) as [tr' s']; simpl in *.
  subst tr'. destruct (IH (tr ++ sink_calls st (nodes_of c)) s') as [-> T3].
  split; [|by etrans]. unfold nodes_of_seq. simpl.
  rewrite sink_calls_app, (sink_calls_same _ _ (concat _) T2). by rewrite <- app_assoc.
Qed.

End Traversal.

(** ** Reads do not matter, and a larger bound changes no result *)

Section Congruence.
Context {V Node : Type} `{Countable Node}.
Context {D : AbstractValue V} {G : GraphTrait Node} {A : Analyzer V Node}.
Variable wto : Wto Node.

Implicit Types (st : state V Node) (n m h : Node) (v : V)
  (c : component Node) (cs body : list (component Node))
  (vb : state V Node → option (state V Node)).

Lemma cycle_loop_same vb1 vb2 h k :
  (∀ s1 s2, same_content s1 s2 → option_Forall2 same_content (vb1 s1) (vb2 s2)) →
  ∀ kind i v st1 st2, same_content st1 st2 →
    option_Forall2 same_content
      (cycle_loop wto vb1 h k kind i v st1) (cycle_loop wto vb2 h k kind i v st2).
Proof.
  intros Hvb. induction k as [|k IH]; intros kind i v st1 st2 E; [constructor|].
  rewrite !cycle_loop_pass.
  destruct (Hvb (set_post h (analyze_node h v) (set_pre h v st1))
                (set_post h (analyze_node h v) (set_pre h v st2)))
    as [s1 s2 E2|]; [by apply set_post_same, set_pre_same| |constructor].
  rewrite !(join_edges_same _ _ _ _ _ E2).
  assert (same_content (after_joins wto h s1) (after_joins wto h s2)) as E3.
  { etrans; [apply after_joins_same|]. etrans; [done|]. symmetry. apply after_joins_same. }
  destruct (cycle_update _ _ _ _ _) as [np|kind' i' v'].
  - constructor. by apply set_pre_same.
  - by apply IH.
Qed.

Lemma visit_seq_same (f1 f2 : component Node → state V Node → option (state V Node)) cs :
  Forall (λ c, ∀ s1 s2, same_content s1 s2 →
                 option_Forall2 same_content (f1 c s1) (f2 c s2)) cs →
  ∀ st1 st2, same_content st1 st2 →
    option_Forall2 same_content (visit_seq f1 cs st1) (visit_seq f2 cs st2).
Proof.
  induction 1 as [|c cs Hc _ IH]; intros st1 st2 E; simpl; [by constructor|].
  destruct (Hc _ _ E) as [s1 s2 E2|]; [by apply IH|constructor].
Qed.

Lemma visit_same fuel c st1 st2 :
  same_content st1 st2 →
  option_Forall2 same_content (visit wto fuel c st1) (visit wto fuel c st2).
Proof.
  revert st1 st2. induction c as [n|h body IH] using component_ind'; intros st1 st2 E.
  { constructor. by apply visit_vertex_same. }
  rewrite !visit_cycle, (join_edges_same _ _ _ _ _ E).
  apply cycle_loop_same.
  - by apply visit_seq_same.
  - etrans; [apply collect_same|]. etrans; [done|]. symmetry. apply collect_same.
Qed.

Lemma iterate_same fuel st1 st2 :
  same_content st1 st2 →
  option_Forall2 same_content (iterate wto fuel st1) (iterate wto fuel st2).
Proof.
  intros E. apply visit_seq_same; [|done].
  apply Forall_forall. intros c _ s1 s2. apply visit_same.
Qed.

Lemma cycle_loop_mono vb vb' h :
  (∀ s r, vb s = Some r → vb' s = Some r) →
  ∀ k k' kind i v st r, k ≤ k' →
    cycle_loop wto vb h k kind i v st = Some r →
    cycle_loop wto vb' h k' kind i v st = Some r.
Proof.
  intros Hvb. induction k as [|k IH]; intros k' kind i v st r Hk E; [done|].
  destruct k' as [|k']; [lia|]. rewrite cycle_loop_pass in *.
  destruct (vb _) as [s2|] eqn:Eb; [|done]. rewrite (Hvb _ _ Eb).
  destruct (cycle_update _ _ _ _ _) as [np|kind' i' v']; [done|].
  apply (IH k'); [lia|done].
Qed.

Lemma visit_seq_mono (f f' : component Node → state V Node → option (state V Node)) cs :
  Forall (λ c, ∀ s r, f c s = Some r → f' c s = Some r) cs →
  ∀ st r, visit_seq f cs st = Some r → visit_seq f' cs st = Some r.
Proof.
  induction 1 as [|c cs Hc _ IH]; intros st r E; simpl in *; [done|].
  destruct (f c st) as [s|] eqn:Ec; [|done]. rewrite (Hc _ _ Ec). by apply IH.
Qed.

Lemma visit_mono c fuel fuel' st r :
  fuel ≤ fuel' → visit wto fuel c st = Some r → visit wto fuel' c st = Some r.
Proof.
  intros Hf. revert st r.
  induction c as [n|h body IH] using component_ind'; intros st r; [done|].
  rewrite !visit_cycle. apply cycle_loop_mono; [|done].
  by apply visit_seq_mono.
Qed.

Lemma iterate_mono fuel fuel' st r :
  fuel ≤ fuel' → iterate wto fuel st = Some r → iterate wto fuel' st = Some r.
Proof.
  intros Hf. apply visit_seq_mono. apply Forall_forall. intros c _ s r'.
  by apply visit_mono.
Qed.

End Congruence.

(** ** The visit handlers *)

Section Handlers.
Context {V Node : Type} `{Countable Node}.
Context {D : AbstractValue V} {G : GraphTrait Node} {A : Analyzer V Node}.
Variable wto : Wto Node.

Implicit Types (st : state V Node) (n m h p : Node) (v : V)
  (c : component Node) (cs body : list (component Node))
  (vb : state V Node → option (state V Node)).

Lemma filter_all (l : list Node) : List.filter (λ _, true) l = l.
Proof. induction l as [|x l IH]; simpl; [done|by rewrite IH]. Qed.

(** [a > b] on nestings: [b] is a strict prefix of [a]. *)
Lemma nesting_gt_prefix (a b : list Node) :
  nesting_gt a b = true ↔ ∃ x l, a = b ++ x :: l.
Proof.
  revert a. induction b as [|y b IH]; intros [|x a]; simpl.
  - split; [done|]. by intros (? & ? & ?).
  - split; [by exists x, a|done].
  - split; [done|]. by intros (? & ? & ?).
  - destruct (decide (x = y)) as [->|Hne].
    + rewrite IH. split; intros (z & l & E); exists z, l; by simplify_eq.
    + split; [done|]. intros (z & l & E). by simplify_eq.
Qed.

Lemma join_edges_agree keep n st1 st2 v :
  (∀ p, p ∈ List.filter keep (predecessors n) → post_of st1 p = post_of st2 p) →
  join_edges keep n st1 v = join_edges keep n st2 v.
Proof.
  unfold join_edges. generalize (List.filter keep (predecessors n)).
  intros l E. revert v. induction l as [|p l IH]; intros v; simpl; [done|].
  rewrite (E p); [|by left]. apply IH. intros q Hq. apply E. by right.
Qed.

(** C6: a vertex visit starts from the stored pre of the node when the
    node is the entry and from bottom otherwise, joins in
    [analyze_edge(p, n, post(p))] for every predecessor [p], stores the
    result as [pre(n)] and stores [analyze_node(n, pre)] as [post(n)];
    the entries of the other nodes keep their values. *)
Theorem visit_vertex_computes fuel n st :
  let pre0 := if decide (n = entry) then pre_of st n else bottom in
  let pre1 :=
    foldl (λ acc p, join_with acc (analyze_edge p n (post_of st p)))
          pre0 (predecessors n) in
  ∃ st', visit wto fuel (Vertex n) st = Some st'
    ∧ st_pre st' !! n = Some pre1
    ∧ st_post st' !! n = Some (analyze_node n pre1)
    ∧ ∀ m, pre_of st' m = (if decide (n = m) then pre1 else pre_of st m)
         ∧ post_of st' m
             = (if decide (n = m) then analyze_node n pre1 else post_of st m).
Proof.
  intros pre0 pre1. exists (visit_vertex n st). split; [done|].
  assert (vertex_pre n st = pre1) as Ep.
  { unfold vertex_pre, join_edges. by rewrite filter_all. }
  destruct (visit_vertex_spec n st) as (s & Es & E). rewrite Ep in E.
  split; [|split].
  - rewrite E. simpl. by rewrite set_insert, lookup_insert_eq.
  - rewrite E. simpl. by rewrite set_insert, lookup_insert_eq.
  - intros m. by rewrite visit_vertex_pre, visit_vertex_post, Ep.
Qed.

(** C3: a cycle visit splits the predecessors of the head into the
    incoming ones, whose nesting is not strictly greater than the
    head's, and the back edges, whose nesting is; the fixpoint loop
    starts in the increasing phase with counter 1 from the join, from
    bottom, of [analyze_edge(p, h, post(p))] over the incoming
    predecessors, whatever [post] holds for the other nodes. *)
Theorem cycle_seed_from_incoming fuel h body st :
  let deeper := λ p, nesting_gt (nesting wto p) (nesting wto h) in
  let incoming := List.filter (λ p, negb (deeper p)) (predecessors h) in
  let back := List.filter deeper (predecessors h) in
  let seed := λ s,
    foldl (λ acc p, join_with acc (analyze_edge p h (post_of s p)))
          bottom incoming in
  (∃ st0, same_content st0 st
     ∧ visit wto fuel (Cycle h body) st
         = cycle_loop wto (visit_seq (visit wto fuel) body) h fuel
             Increasing 1%N (seed st) st0)
  ∧ (∀ p, p ∈ predecessors h →
       (p ∈ incoming ∧ (p ∉ back) ∧ deeper p = false)
       ∨ (p ∈ back ∧ (p ∉ incoming) ∧ deeper p = true))
  ∧ (∀ st', (∀ p, p ∈ incoming → post_of st' p = post_of st p) →
       seed st' = seed st).
Proof.
  intros deeper incoming back seed. split; [|split].
  - eexists. split; [|apply visit_cycle]. apply collect_same.
  - intros p Hp. subst incoming back. rewrite !list_elem_of_In, !filter_In.
    rewrite <- !list_elem_of_In.
    destruct (deeper p); [right|left]; (split; [done|split; [|done]]);
      by intros [_ ?].
  - intros st' E. by apply (join_edges_agree (is_incoming wto h) h st' st bottom).
Qed.

(** C4: in every pass of the cycle loop the two joins over the
    predecessors of the head read [post] in the tables left by the visit
    of the body made in that pass, and the candidate is
    [join_loop(new_pre_in, new_pre_back)]. *)
Theorem cycle_pass_rereads_post vb h k kind i v st st2 :
  vb (set_post h (analyze_node h v) (set_pre h v st)) = Some st2 →
  let deeper := λ p, nesting_gt (nesting wto p) (nesting wto h) in
  let over := λ keep,
    foldl (λ acc p, join_with acc (analyze_edge p h (post_of st2 p)))
          bottom (List.filter keep (predecessors h)) in
  let new_pre_in := over (λ p, negb (deeper p)) in
  let new_pre_back := over deeper in
  ∃ st3, same_content st3 st2
    ∧ cycle_loop wto vb h (S k) kind i v st
        = match cycle_update h kind i v (join_loop_with new_pre_in new_pre_back) with
          | Break new_pre => Some (set_pre h new_pre st3)
          | Continue kind' i' v' => cycle_loop wto vb h k kind' i' v' st3
          end.
Proof.
  intros E deeper over new_pre_in new_pre_back.
  exists (after_joins wto h st2). split; [apply after_joins_same|].
  by rewrite cycle_loop_pass, E.
Qed.

(** A pass ends the loop only with a value that [refine] returned and
    that the decreasing-fixpoint test accepted. *)
Lemma cycle_update_break h kind i v new_pre r :
  cycle_update h kind i v new_pre = Break r →
  ∃ i', r = refine h i' v new_pre
    ∧ is_decreasing_iterations_fixpoint v r = true
    ∧ (kind = Increasing →
         is_increasing_iterations_fixpoint v new_pre = true ∧ i' = 1%N).
Proof.
  unfold cycle_update. destruct kind.
  - destruct (is_increasing_iterations_fixpoint v new_pre) eqn:Ei; [|done].
    destruct (is_decreasing_iterations_fixpoint v _) eqn:Ed; [|done].
    intros [= <-]. by exists 1%N.
  - destruct (is_decreasing_iterations_fixpoint v _) eqn:Ed; [|done].
    intros [= <-]. by exists i.
Qed.

Lemma cycle_loop_exit vb h k kind i v st r :
  cycle_loop wto vb h k kind i v st = Some r →
  ∃ i' v' new_pre st',
    is_decreasing_iterations_fixpoint v' (refine h i' v' new_pre) = true
    ∧ r = set_pre h (refine h i' v' new_pre) st'.
Proof.
  revert kind i v st. induction k as [|k IH]; intros kind i v st; [done|].
  rewrite cycle_loop_pass. destruct (vb _) as [st2|]; [|done].
  destruct (cycle_update _ _ _ _ _) as [np|kind' i' v'] eqn:Eu; [|apply IH].
  intros [= <-]. destruct (cycle_update_break _ _ _ _ _ _ Eu) as (i' & -> & Ed & _).
  by eexists _, _, _, _.
Qed.

(** C5: the phases of a cycle head.  A pass of the increasing phase that
    finds the increasing fixpoint ends exactly as a pass of the
    decreasing phase with counter 1 would, on the same [pre] and the
    same candidate, so with [refine] and without [extrapolate];
    otherwise it goes on increasing from the extrapolated value.  A
    pass of the decreasing phase refines the candidate and either breaks
    or goes on decreasing.  Hence a cycle visit that returns stored a
    refined value that passed the decreasing-fixpoint test. *)
Theorem cycle_phases :
  (∀ h i v new_pre,
     is_increasing_iterations_fixpoint v new_pre = true →
     cycle_update h Increasing i v new_pre = cycle_update h Decreasing 1%N v new_pre
     ∧ cycle_update h Increasing i v new_pre
         = if is_decreasing_iterations_fixpoint v (refine h 1%N v new_pre)
           then Break (refine h 1%N v new_pre)
           else Continue Decreasing 2%N (refine h 1%N v new_pre))
  ∧ (∀ h i v new_pre,
       is_increasing_iterations_fixpoint v new_pre = false →
       cycle_update h Increasing i v new_pre
         = Continue Increasing (incr i) (extrapolate h i v new_pre))
  ∧ (∀ h i v new_pre,
       cycle_update h Decreasing i v new_pre
         = if is_decreasing_iterations_fixpoint v (refine h i v new_pre)
           then Break (refine h i v new_pre)
           else Continue Decreasing (incr i) (refine h i v new_pre))
  ∧ (∀ fuel h body st r,
       visit wto fuel (Cycle h body) st = Some r →
       ∃ i v new_pre st',
         is_decreasing_iterations_fixpoint v (refine h i v new_pre) = true
         ∧ r = set_pre h (refine h i v new_pre) st').
Proof.
  split; [|split; [|split]].
  - intros h i v np E. unfold cycle_update. by rewrite E.
  - intros h i v np E. unfold cycle_update. by rewrite E.
  - done.
  - intros fuel h body st r. rewrite visit_cycle. apply cycle_loop_exit.
Qed.

Lemma run_unfold fuel init st :
  run wto fuel init st =
    match iterate wto fuel (set_pre entry init st) with
    | None => None
    | Some s =>
        Some ((process_seq (components wto) [] s).2,
              (process_seq (components wto) [] s).1)
    end.
Proof.
  unfold run. destruct (iterate _ _ _) as [s|]; [|done].
  by destruct (process_seq _ _ _).
Qed.

Lemma run_mono fuel fuel' init st r :
  fuel ≤ fuel' → run wto fuel init st = Some r → run wto fuel' init st = Some r.
Proof.
  intros Hf. rewrite !run_unfold.
  destruct (iterate wto fuel _) as [s|] eqn:E; [|done].
  by rewrite (iterate_mono wto _ _ _ _ Hf E).
Qed.

(** C9: [run] hands the invariants to the sinks after the iteration is
    over: the calls are [process_pre] then [process_post] for each node,
    the nodes taken in the pre-order of the WTO (a head before its
    body, components from left to right), and the values are those of
    the final tables. *)
Theorem run_processes_in_wto_order fuel init st st' tr :
  run wto fuel init st = Some (st', tr) →
  ∃ st_end,
    iterate wto fuel (set_pre entry init st) = Some st_end
    ∧ same_content st' st_end
    ∧ tr = concat (map (λ n, [ProcessPre n (pre_of st_end n);
                              ProcessPost n (post_of st_end n)])
                       (nodes_of_seq (components wto)))
    ∧ tr = concat (map (λ n, [ProcessPre n (pre_of st' n);
                              ProcessPost n (post_of st' n)])
                       (nodes_of_seq (components wto))).
Proof.
  rewrite run_unfold. destruct (iterate _ _ _) as [s|]; [|done].
  intros [= <- <-]. exists s. split; [done|].
  destruct (process_seq_spec (components wto) [] s) as [-> E].
  split; [done|]. split; [done|].
  symmetry. by apply (sink_calls_same _ _ _ E).
Qed.

Lemma run_same fuel init st1 st2 :
  same_content st1 st2 →
  option_Forall2 (λ r1 r2, same_content r1.1 r2.1 ∧ r1.2 = r2.2)
    (run wto fuel init st1) (run wto fuel init st2).
Proof.
  intros E. rewrite !run_unfold.
  destruct (iterate_same wto fuel (set_pre entry init st1) (set_pre entry init st2))
    as [s1 s2 E2|]; [by apply set_pre_same| |constructor].
  constructor. simpl.
  destruct (process_seq_spec (components wto) [] s1) as [-> E3].
  destruct (process_seq_spec (components wto) [] s2) as [-> E4].
  split; [|by rewrite (sink_calls_same _ _ _ E2)].
  etrans; [done|]. etrans; [done|]. by symmetry.
Qed.

(** C10: a table stands for the total map that sends a node to its
    stored value, or to bottom.  A read returns the value of that map;
    on a node without an entry it returns bottom.  The entry a read may
    insert changes the map nowhere, and a write changes it at the
    written node only; so a read changes neither the value of a later
    read nor what [run] computes: the sinks receive the same calls and
    the final tables stand for the same maps. *)
Theorem reads_are_pure :
  (∀ (tbl : gmap Node V) n, tbl !! n = None → (get tbl n).1 = bottom)
  ∧ (∀ (tbl : gmap Node V) n, (get tbl n).1 = content tbl n)
  ∧ (∀ (tbl : gmap Node V) n m,
       content (get tbl n).2 m = content tbl m
       ∧ (get (get tbl n).2 m).1 = (get tbl m).1)
  ∧ (∀ (tbl : gmap Node V) n v m,
       content (set tbl n v) m = if decide (n = m) then v else content tbl m)
  ∧ (∀ n st, (pre n st).1 = pre_of st n ∧ (post n st).1 = post_of st n
             ∧ same_content (pre n st).2 st ∧ same_content (post n st).2 st)
  ∧ (∀ st1 st2 fuel init, same_content st1 st2 →
       option_Forall2 (λ r1 r2, same_content r1.1 r2.1 ∧ r1.2 = r2.2)
         (run wto fuel init st1) (run wto fuel init st2))
  ∧ (∀ n st fuel init,
       option_Forall2 (λ r1 r2, same_content r1.1 r2.1 ∧ r1.2 = r2.2)
         (run wto fuel init (pre n st).2) (run wto fuel init st)
       ∧ option_Forall2 (λ r1 r2, same_content r1.1 r2.1 ∧ r1.2 = r2.2)
           (run wto fuel init (post n st).2) (run wto fuel init st)).
Proof.
  split; [|split; [|split; [|split; [|split; [|split]]]]].
  - intros tbl n E. unfold get. by rewrite E.
  - apply get_value.
  - intros tbl n m. split; [apply get_content|].
    by rewrite !get_value, get_content.
  - apply content_set.
  - intros n st. split; [apply pre_value|]. split; [apply post_value|].
    split; [apply pre_same|apply post_same].
  - intros st1 st2 fuel init E. by apply run_same.
  - intros n st fuel init. split; apply run_same; [apply pre_same|apply post_same].
Qed.

End Handlers.

(** ** What holds when [run] returns *)

Section Invariants.
Context {V Node : Type} `{Countable Node}.
Context {D : AbstractValue V} {G : GraphTrait Node} {A : Analyzer V Node}.
Variable wto : Wto Node.

Implicit Types (st : state V Node) (n m h p : Node) (v : V)
  (c : component Node) (cs body : list (component Node))
  (vb : state V Node → option (state V Node)).

(** A property of the tables that the writes of a cycle visit and the
    visit of the body keep is kept by the loop. *)
Lemma cycle_loop_keeps (Φ : state V Node → Prop) vb h :
  (∀ s s', same_content s s' → Φ s → Φ s') →
  (∀ s v, Φ s → Φ (set_pre h v s)) →
  (∀ s v, Φ s → Φ (set_post h v s)) →
  (∀ s r, vb s = Some r → Φ s → Φ r) →
  ∀ k kind i v st r, cycle_loop wto vb h k kind i v st = Some r → Φ st → Φ r.
Proof.
  intros Hsame Hpre Hpost Hvb.
  induction k as [|k IH]; intros kind i v st r; [done|].
  rewrite cycle_loop_pass. destruct (vb _) as [st2|] eqn:Eb; [|done].
  intros E HΦ.
  assert (Φ (after_joins wto h st2)) as H2.
  { apply (Hsame st2); [symmetry; apply after_joins_same|].
    apply (Hvb _ _ Eb). by apply Hpost, Hpre. }
  destruct (cycle_update _ _ _ _ _) as [np|kind' i' v'].
  - injection E as <-. by apply Hpre.
  - by apply (IH _ _ _ _ _ E).
Qed.

Lemma visit_seq_keeps (Φ : state V Node → Prop)
    (f : component Node → state V Node → option (state V Node)) cs :
  Forall (λ c, ∀ s r, f c s = Some r → Φ s → Φ r) cs →
  ∀ st r, visit_seq f cs st = Some r → Φ st → Φ r.
Proof.
  induction 1 as [|c cs Hc _ IH]; intros st r E HΦ; simpl in E.
  { by injection E as <-. }
  destruct (f c st) as [s|] eqn:Ec; [|done].
  apply (IH _ _ E). by apply (Hc _ _ Ec).
Qed.

(** A visit writes only the entries of the nodes of the component. *)
Lemma visit_frame c fuel st r n :
  visit wto fuel c st = Some r → n ∉ nodes_of c →
  pre_of r n = pre_of st n ∧ post_of r n = post_of st n.
Proof.
  revert st r. induction c as [m|h body IH] using component_ind'; intros st r E Hn.
  { injection E as <-. rewrite visit_vertex_pre, visit_vertex_post.
    destruct (decide (m = n)) as [->|]; [|done]. exfalso. apply Hn. by left. }
  simpl in Hn. apply not_elem_of_cons in Hn as [Hh Hb].
  assert (∀ s r', visit_seq (visit wto fuel) body s = Some r' →
            pre_of r' n = pre_of s n ∧ post_of r' n = post_of s n) as Hbody.
  { clear E. induction IH as [|c body Hc _ IHb]; intros s r' Eb; simpl in Eb.
    { by injection Eb as <-. }
    simpl in Hb. apply not_elem_of_app in Hb as [Hb1 Hb2].
    destruct (visit wto fuel c s) as [s1|] eqn:Ec; [|done].
    destruct (Hc _ _ Ec Hb1) as [<- <-]. by apply IHb. }
  rewrite visit_cycle in E.
  apply (cycle_loop_keeps
           (λ s, pre_of s n = pre_of st n ∧ post_of s n = post_of st n)) in E;
    [done| | | | |].
  - intros s s' Es [<- <-]. by destruct (Es n) as [-> ->].
  - intros s v HΦ. rewrite pre_of_set_pre, post_of_set_pre.
    by destruct (decide (h = n)).
  - intros s v HΦ. rewrite pre_of_set_post, post_of_set_post.
    by destruct (decide (h = n)).
  - intros s r' Eb [<- <-]. by apply Hbody.
  - by destruct (collect_same (is_incoming wto h) h (predecessors h) bottom st n)
      as [-> ->].
Qed.

Lemma visit_seq_frame cs fuel st r n :
  visit_seq (visit wto fuel) cs st = Some r → n ∉ nodes_of_seq cs →
  pre_of r n = pre_of st n ∧ post_of r n = post_of st n.
Proof.
  revert st. induction cs as [|c cs IH]; intros st E Hn; simpl in E.
  { by injection E as <-. }
  unfold nodes_of_seq in Hn. simpl in Hn. apply not_elem_of_app in Hn as [H1 H2].
  destruct (visit wto fuel c st) as [s1|] eqn:Ec; [|done].
  destruct (visit_frame _ _ _ _ _ Ec H1) as [<- <-]. by apply IH.
Qed.

Lemma concat_map_incl (f g : component Node → list Node) cs n :
  Forall (λ c, n ∈ f c → n ∈ g c) cs →
  n ∈ concat (map f cs) → n ∈ concat (map g cs).
Proof.
  induction 1 as [|c cs Hc _ IH]; simpl; [done|].
  rewrite !elem_of_app. intros [?|?]; [left|right]; auto.
Qed.

Lemma vertices_are_nodes c n : n ∈ vertices_of c → n ∈ nodes_of c.
Proof.
  induction c as [m|h body IH] using component_ind'; [done|]. simpl.
  intros Hn. right. revert Hn. by apply concat_map_incl.
Qed.

Lemma heads_are_nodes c n : n ∈ heads_of c → n ∈ nodes_of c.
Proof.
  induction c as [m|h body IH] using component_ind'; simpl;
    [by intros ?%elem_of_nil|].
  rewrite !elem_of_cons. intros [->|Hn]; [by left|right].
  revert Hn. by apply concat_map_incl.
Qed.

Lemma consistent_transfer n st r :
  pre_of r n = pre_of st n → post_of r n = post_of st n →
  consistent n st → consistent n r.
Proof. unfold consistent. by intros -> ->. Qed.

Lemma refined_head_transfer h st r :
  pre_of r h = pre_of st h → post_of r h = post_of st h →
  refined_head h st → refined_head h r.
Proof. unfold refined_head. by intros -> ->. Qed.

(** After a sequence of visits whose nodes are pairwise distinct, every
    vertex is consistent and every head is as its cycle visit left
    it. *)
Lemma visit_seq_establishes fuel cs :
  Forall (λ c, NoDup (nodes_of c) → ∀ st r, visit wto fuel c st = Some r →
               ∀ n, (n ∈ vertices_of c → consistent n r)
                    ∧ (n ∈ heads_of c → refined_head n r)) cs →
  NoDup (nodes_of_seq cs) →
  ∀ st r, visit_seq (visit wto fuel) cs st = Some r →
    ∀ n, (n ∈ vertices_of_seq cs → consistent n r)
         ∧ (n ∈ heads_of_seq cs → refined_head n r).
Proof.
  induction 1 as [|c cs Hc _ IH]; intros Hnd st r E n.
  { split; intros Hn; by apply elem_of_nil in Hn. }
  unfold nodes_of_seq in Hnd. simpl in Hnd.
  apply NoDup_app in Hnd as (Hnd1 & Hdis & Hnd2). simpl in E.
  destruct (visit wto fuel c st) as [s1|] eqn:Ec; [|done].
  unfold vertices_of_seq, heads_of_seq. simpl. rewrite !elem_of_app.
  split; (intros [Hn|Hn]; [|by apply (IH Hnd2 _ _ E n)]).
  - destruct (visit_seq_frame _ _ _ _ n E) as [E1 E2].
    { by apply Hdis, vertices_are_nodes. }
    apply (consistent_transfer _ s1); [done..|]. by apply (Hc Hnd1 _ _ Ec n).
  - destruct (visit_seq_frame _ _ _ _ n E) as [E1 E2].
    { by apply Hdis, heads_are_nodes. }
    apply (refined_head_transfer _ s1); [done..|]. by apply (Hc Hnd1 _ _ Ec n).
Qed.

Lemma visit_establishes c :
  NoDup (nodes_of c) →
  ∀ fuel st r, visit wto fuel c st = Some r →
    ∀ n, (n ∈ vertices_of c → consistent n r)
         ∧ (n ∈ heads_of c → refined_head n r).
Proof.
  induction c as [m|h body IH] using component_ind'; intros Hnd fuel st r E n.
  { injection E as <-. split; [|intros Hn; by apply elem_of_nil in Hn].
    intros ->%list_elem_of_singleton. unfold consistent.
    rewrite visit_vertex_pre, visit_vertex_post. by destruct (decide (m = m)). }
  simpl in Hnd. apply NoDup_cons in Hnd as [Hh Hnd].
  rewrite visit_cycle in E. revert E.
  generalize (join_edges (is_incoming wto h) h st bottom).
  generalize (collect (is_incoming wto h) h (predecessors h) bottom st).2.
  generalize 1%N. generalize Increasing.
  assert (∀ s r', visit_seq (visit wto fuel) body s = Some r' →
            ∀ n, (n ∈ vertices_of_seq body → consistent n r')
                 ∧ (n ∈ heads_of_seq body → refined_head n r')) as Hbody.
  { apply visit_seq_establishes; [|done].
    eapply Forall_impl; [exact IH|]. intros c Hc Hndc s r'. by apply Hc. }
  generalize fuel at 2. intros k. revert n.
  induction k as [|k IHk]; intros n kind i s v; [done|].
  rewrite cycle_loop_pass.
  destruct (visit_seq _ body _) as [st2|] eqn:Eb; [|done].
  destruct (cycle_update _ _ _ _ _) as [np|kind' i' v'] eqn:Eu; [|apply IHk].
  intros [= <-].
  assert (∀ m, m ≠ h →
            pre_of (set_pre h np (after_joins wto h st2)) m = pre_of st2 m
            ∧ post_of (set_pre h np (after_joins wto h st2)) m = post_of st2 m) as Hm.
  { intros m Hne. rewrite pre_of_set_pre, post_of_set_pre.
    destruct (decide (h = m)); [done|]. apply after_joins_same. }
  split.
  - intros Hn. change (n ∈ vertices_of_seq body) in Hn.
    assert (n ≠ h) as Hne.
    { intros ->. apply Hh. revert Hn. apply concat_map_incl, Forall_forall.
      intros c _. apply vertices_are_nodes. }
    destruct (Hm n Hne) as [E1 E2].
    apply (consistent_transfer _ st2); [done..|]. by apply (Hbody _ _ Eb n).
  - simpl. rewrite elem_of_cons. intros [->|Hn].
    + destruct (cycle_update_break _ _ _ _ _ _ Eu) as (i' & -> & Ed & _).
      exists i', v, (join_loop_with (join_edges (is_incoming wto h) h st2 bottom)
                       (join_edges (is_back_edge wto h) h st2 bottom)).
      rewrite pre_of_set_pre, post_of_set_pre.
      destruct (decide (h = h)); [|done]. split; [|done].
      destruct (after_joins_same wto h st2 h) as [_ ->].
      destruct (visit_seq_frame _ _ _ _ h Eb Hh) as [_ ->].
      rewrite post_of_set_post. by destruct (decide (h = h)).
    + assert (n ≠ h) as Hne.
      { intros ->. apply Hh. revert Hn. apply concat_map_incl, Forall_forall.
        intros c _. apply heads_are_nodes. }
      destruct (Hm n Hne) as [E1 E2].
      apply (refined_head_transfer _ st2); [done..|]. by apply (Hbody _ _ Eb n).
Qed.

(** Where [refine] never goes above the value it refines, the
    decreasing-fixpoint test implies the order and the order is
    antisymmetric, the value stored for a head is the [pre] of the last
    pass, so the head is consistent. *)
Lemma refined_head_consistent h st :
  (∀ h i v new_pre, leq (refine h i v new_pre) v = true) →
  (∀ a b, is_decreasing_iterations_fixpoint a b = true → leq a b = true) →
  (∀ a b : V, leq a b = true → leq b a = true → a = b) →
  refined_head h st → consistent h st.
Proof.
  intros Hr Hd Ha (i & v & np & Ep & Eq & Ed). unfold consistent.
  rewrite Ep, Eq. f_equal. apply Ha; [by apply Hd|apply Hr].
Qed.

(** C1, amended: when [run] returns on a WTO whose nodes are pairwise
    distinct, [post(n) = analyze_node(n, pre(n))] holds for every node
    visited as a vertex.  For the head [h] of a cycle, [post(h)] is
    [analyze_node(h, v)] for the [pre] value [v] of the last pass, and
    [pre(h)] is the value [refine] returned from [v] in that pass, which
    the decreasing-fixpoint test accepted; [analyze_node] is not applied
    to it.  The two agree, and the head is consistent as well, when
    [refine] never goes above the value it refines, the
    decreasing-fixpoint test implies the order and the order is
    antisymmetric. *)
Theorem post_consistent_on_vertices fuel init st st' tr :
  NoDup (nodes_of_seq (components wto)) →
  run wto fuel init st = Some (st', tr) →
  (∀ n, n ∈ vertices_of_seq (components wto) →
     post_of st' n = analyze_node n (pre_of st' n))
  ∧ (∀ h, h ∈ heads_of_seq (components wto) →
       ∃ i v new_pre,
         post_of st' h = analyze_node h v
         ∧ pre_of st' h = refine h i v new_pre
         ∧ is_decreasing_iterations_fixpoint v (refine h i v new_pre) = true)
  ∧ ((∀ h i v new_pre, leq (refine h i v new_pre) v = true) →
     (∀ a b, is_decreasing_iterations_fixpoint a b = true → leq a b = true) →
     (∀ a b : V, leq a b = true → leq b a = true → a = b) →
     ∀ h, h ∈ heads_of_seq (components wto) →
       post_of st' h = analyze_node h (pre_of st' h)).
Proof.
  intros Hnd. rewrite run_unfold.
  destruct (iterate _ _ _) as [s|] eqn:Ei; [|done]. intros [= <- _].
  destruct (process_seq_spec (components wto) [] s) as [_ Es].
  assert (∀ n, (n ∈ vertices_of_seq (components wto) → consistent n s)
               ∧ (n ∈ heads_of_seq (components wto) → refined_head n s)) as Hs.
  { apply (visit_seq_establishes fuel (components wto)) with (st := set_pre entry init st);
      [|done..].
    apply Forall_forall. intros c _ Hc s0 r. by apply visit_establishes. }
  assert (∀ h, h ∈ heads_of_seq (components wto) →
            refined_head h (process_seq (components wto) [] s).2) as Hh.
  { intros h Hn. apply (refined_head_transfer h s); [apply Es..|by apply Hs]. }
  split; [|split; [done|]].
  - intros n Hn. apply (consistent_transfer n s); [apply Es..|by apply Hs].
  - intros Hr Hd Ha h Hn. apply refined_head_consistent; auto.
Qed.

(** A visit of a component in which the entry node heads no cycle
    leaves [pre(entry)] as it is when the entry has no predecessor. *)
Lemma visit_keeps_entry c :
  entry ∉ heads_of c → predecessors entry = [] →
  ∀ fuel st r, visit wto fuel c st = Some r → pre_of r entry = pre_of st entry.
Proof.
  intros Hh Hp. induction c as [m|h body IH] using component_ind';
    intros fuel st r E.
  { injection E as <-. rewrite visit_vertex_pre.
    destruct (decide (m = entry)) as [->|]; [|done].
    unfold vertex_pre, join_edges. rewrite Hp. simpl.
    by destruct (decide (entry = entry)). }
  simpl in Hh. apply not_elem_of_cons in Hh as [Hne Hb].
  assert (∀ s r', visit_seq (visit wto fuel) body s = Some r' →
            pre_of r' entry = pre_of s entry) as Hbody.
  { clear E. induction IH as [|c body Hc _ IHb]; intros s r' Eb; simpl in Eb.
    { by injection Eb as <-. }
    simpl in Hb. apply not_elem_of_app in Hb as [Hb1 Hb2].
    destruct (visit wto fuel c s) as [s1|] eqn:Ec; [|done].
    rewrite <- (Hc Hb1 _ _ _ Ec). by apply IHb. }
  rewrite visit_cycle in E.
  apply (cycle_loop_keeps (λ s, pre_of s entry = pre_of st entry)) in E;
    [done| | | | |].
  - intros s s' Es <-. symmetry. apply Es.
  - intros s v <-. rewrite pre_of_set_pre. by destruct (decide (h = entry)).
  - by intros s v <-.
  - intros s r' Eb <-. by apply Hbody.
  - apply collect_same.
Qed.


End Invariants.

(** ** Monotonicity without cycles *)

Section Monotonicity.
Context {V Node : Type} `{Countable Node}.
Context {D : AbstractValue V} {G : GraphTrait Node} {A : Analyzer V Node}.
Variable wto : Wto Node.

Implicit Types (st : state V Node) (n m h p : Node) (v : V)
  (c : component Node) (cs body : list (component Node)).

Hypothesis callbacks_monotone : monotone_callbacks.
Hypothesis join_monotone : monotone2 join_with.
Hypothesis bottom_least : ∀ x : V, leq bottom x = true.

Lemma join_edges_below keep n st1 st2 v1 v2 :
  below st1 st2 → leq v1 v2 = true →
  leq (join_edges keep n st1 v1) (join_edges keep n st2 v2) = true.
Proof using callbacks_monotone join_monotone.
  intros Hb. unfold join_edges. generalize (List.filter keep (predecessors n)).
  intros l. revert v1 v2. induction l as [|p l IH]; intros v1 v2 Hv; simpl; [done|].
  apply IH. apply join_monotone; [done|].
  destruct callbacks_monotone as (_ & He & _). apply He, Hb.
Qed.

Lemma visit_vertex_below n st1 st2 :
  below st1 st2 → below (visit_vertex n st1) (visit_vertex n st2).
Proof using callbacks_monotone join_monotone bottom_least.
  intros Hb.
  assert (leq (vertex_pre n st1) (vertex_pre n st2) = true) as Hp.
  { unfold vertex_pre. apply join_edges_below; [done|].
    destruct (decide (n = entry)); [apply Hb|apply bottom_least]. }
  intros m. rewrite !visit_vertex_pre, !visit_vertex_post.
  destruct (decide (n = m)); [|apply Hb]. split; [done|].
  destruct callbacks_monotone as (Hn & _). by apply Hn.
Qed.

Lemma below_same st1 st1' st2 st2' :
  same_content st1' st1 → same_content st2' st2 → below st1 st2 → below st1' st2'.
Proof.
  intros E1 E2 Hb n. destruct (E1 n) as [-> ->], (E2 n) as [-> ->]. apply Hb.
Qed.

(** Without a cycle two runs from ordered tables and ordered initial
    values end in ordered tables. *)
Lemma run_below fuel init1 init2 st1 st2 r1 r2 :
  heads_of_seq (components wto) = [] →
  below st1 st2 →
  leq init1 init2 = true →
  run wto fuel init1 st1 = Some r1 →
  run wto fuel init2 st2 = Some r2 →
  below r1.1 r2.1.
Proof using callbacks_monotone join_monotone bottom_least.
  intros Hh Hb Hi. rewrite !run_unfold.
  destruct (iterate wto fuel (set_pre entry init1 st1)) as [s1|] eqn:E1; [|done].
  destruct (iterate wto fuel (set_pre entry init2 st2)) as [s2|] eqn:E2; [|done].
  intros [= <-] [= <-]. simpl.
  apply (below_same s1 _ s2 _); [apply process_seq_spec..|].
  assert (below (set_pre entry init1 st1) (set_pre entry init2 st2)) as Hb0.
  { intros n. rewrite !pre_of_set_pre, !post_of_set_pre.
    destruct (decide (entry = n)); [|apply Hb]. split; [done|apply Hb]. }
  revert E1 E2 Hb0. unfold iterate, heads_of_seq in *.
  generalize (set_pre entry init1 st1) (set_pre entry init2 st2).
  induction (components wto) as [|c cs IH]; intros a1 a2 E1 E2 Hb0; simpl in *.
  { by injection E1 as <-; injection E2 as <-. }
  destruct c as [m|h body]; [|done]. simpl in Hh.
  apply (IH Hh (visit_vertex m a1) (visit_vertex m a2)); [done..|].
  by apply visit_vertex_below.
Qed.

End Monotonicity.


(** ** Termination *)

Section Termination.
Context {V Node : Type} `{Countable Node}.
Context {D : AbstractValue V} {G : GraphTrait Node} {A : Analyzer V Node}.
Variable wto : Wto Node.

Implicit Types (st : state V Node) (n m h p : Node) (v : V)
  (c : component Node) (cs body : list (component Node)).

(** Every increasing pass that goes on moves [pre] along [ascends], every
    decreasing pass that goes on moves it along [descends], and neither
    relation has an infinite chain. *)
Variables ascends descends : V → V → Prop.
Hypothesis ascends_wf : well_founded ascends.
Hypothesis descends_wf : well_founded descends.
Hypothesis extrapolate_ascends :
  ∀ h i v new_pre,
    is_increasing_iterations_fixpoint v new_pre = false →
    ascends (extrapolate h i v new_pre) v.
Hypothesis refine_descends :
  ∀ h i v new_pre,
    is_decreasing_iterations_fixpoint v (refine h i v new_pre) = false →
    descends (refine h i v new_pre) v.

Section Loop.
Variable h : Node.
Variable body : list (component Node).
Hypothesis body_terminates :
  ∀ st, ∃ fuel r, visit_seq (visit wto fuel) body st = Some r.

(** A pass followed by a loop that returns is a loop that returns. *)
Lemma pass_then_loop kind i v st :
  (∀ new_pre kind' i' v' st',
     cycle_update h kind i v new_pre = Continue kind' i' v' →
     ∃ fuel r, cycle_loop wto (visit_seq (visit wto fuel) body) h fuel kind' i' v' st'
               = Some r) →
  ∃ fuel r, cycle_loop wto (visit_seq (visit wto fuel) body) h fuel kind i v st
            = Some r.
Proof using body_terminates.
  intros Hnext.
  destruct (body_terminates (set_post h (analyze_node h v) (set_pre h v st)))
    as (f1 & st2 & Eb).
  assert (∀ f, f1 ≤ f →
            visit_seq (visit wto f) body
              (set_post h (analyze_node h v) (set_pre h v st)) = Some st2) as Eb'.
  { intros f Hf. revert Eb. apply visit_seq_mono, Forall_forall.
    intros c _ s r. by apply visit_mono. }
  destruct (cycle_update h kind i v
              (join_loop_with (join_edges (is_incoming wto h) h st2 bottom)
                              (join_edges (is_back_edge wto h) h st2 bottom)))
    as [np|kind' i' v'] eqn:Eu.
  - exists (S f1). eexists. rewrite cycle_loop_pass, Eb', Eu; [done|lia].
  - destruct (Hnext _ _ _ _ (after_joins wto h st2) Eu) as (f2 & r & E2).
    exists (S (f1 `max` f2)), r. rewrite cycle_loop_pass, Eb', Eu; [|lia].
    revert E2. apply cycle_loop_mono; [|lia].
    apply visit_seq_mono, Forall_forall. intros c _ s r'. apply visit_mono. lia.
Qed.

Lemma decreasing_terminates v :
  ∀ i st, ∃ fuel r,
    cycle_loop wto (visit_seq (visit wto fuel) body) h fuel Decreasing i v st = Some r.
Proof using body_terminates descends_wf refine_descends.
  induction (descends_wf v) as [v _ IH]. intros i st.
  apply pass_then_loop. intros np kind' i' v' st' Eu.
  unfold cycle_update in Eu.
  destruct (is_decreasing_iterations_fixpoint v _) eqn:Ed; [done|].
  injection Eu as <- <- <-. by apply IH, refine_descends.
Qed.

Lemma increasing_terminates v :
  ∀ i st, ∃ fuel r,
    cycle_loop wto (visit_seq (visit wto fuel) body) h fuel Increasing i v st = Some r.
Proof using All.
  induction (ascends_wf v) as [v _ IH]. intros i st.
  apply pass_then_loop. intros np kind' i' v' st' Eu.
  unfold cycle_update in Eu.
  destruct (is_increasing_iterations_fixpoint v np) eqn:Ei.
  - destruct (is_decreasing_iterations_fixpoint v _); [done|].
    injection Eu as <- <- <-. apply decreasing_terminates.
  - injection Eu as <- <- <-. by apply IH, extrapolate_ascends.
Qed.

End Loop.

Lemma visit_seq_terminates cs :
  Forall (λ c, ∀ st, ∃ fuel r, visit wto fuel c st = Some r) cs →
  ∀ st, ∃ fuel r, visit_seq (visit wto fuel) cs st = Some r.
Proof using Type.
  induction 1 as [|c cs Hc _ IH]; intros st; [by exists 0, st|].
  destruct (Hc st) as (f1 & s1 & E1). destruct (IH s1) as (f2 & r & E2).
  exists (f1 `max` f2), r. simpl.
  rewrite (visit_mono wto c f1 (f1 `max` f2) st s1); [|lia|done].
  revert E2. apply visit_seq_mono, Forall_forall.
  intros c' _ s r'. apply visit_mono. lia.
Qed.

Lemma visit_terminates c : ∀ st, ∃ fuel r, visit wto fuel c st = Some r.
Proof using All.
  induction c as [m|h body IH] using component_ind'; intros st.
  { by exists 0, (visit_vertex m st). }
  destruct (increasing_terminates h body (visit_seq_terminates body IH)
              (join_edges (is_incoming wto h) h st bottom) 1%N
              (collect (is_incoming wto h) h (predecessors h) bottom st).2)
    as (f & r & E).
  exists f, r. by rewrite visit_cycle.
Qed.

(** [run] returns, each cycle loop after finitely many passes. *)
Lemma run_terminates init st : ∃ fuel r, run wto fuel init st = Some r.
Proof using All.
  destruct (visit_seq_terminates (components wto)) with (st := set_pre entry init st)
    as (f & s & E).
  { apply Forall_forall. intros c _. apply visit_terminates. }
  exists f. eexists. rewrite run_unfold. unfold iterate. by rewrite E.
Qed.

End Termination.

(** With a widening that is the join, the default [extrapolate] returns
    a value strictly above [before] whenever the default
    increasing-fixpoint test fails. *)
Lemma default_extrapolate_ascends {V Node : Type} {D : AbstractValue V}
    (h : Node) i (v new_pre : V) :
  widening_free →
  default_is_increasing_iterations_fixpoint v new_pre = false →
  strictly_above (default_extrapolate h i v new_pre) v.
Proof.
  intros (Ht & Hj & Hi & Hw & _) Hn.
  unfold default_is_increasing_iterations_fixpoint in Hn. unfold default_extrapolate.
  assert (∀ w, leq v w = true → leq new_pre w = true → strictly_above w v) as Hup.
  { intros w H1 H2. split; [done|]. destruct (leq w v) eqn:E; [|done].
    by rewrite (Ht _ _ _ H2 E) in Hn. }
  destruct (i <=? 1)%N.
  - apply Hup; apply Hi.
  - rewrite Hw. apply Hup; apply Hj.
Qed.

(** On a domain without infinite descending chain, a narrowing that
    never goes above the value it narrows has no infinite sequence of
    rejected steps. *)
Lemma narrowing_finite_of_descent {V : Type} {D : AbstractValue V} :
  (∀ a b : V, leq (narrow_with a b) a = true) →
  well_founded (flip (strictly_above (V:=V))) →
  well_founded (narrows_strictly (V:=V)).
Proof.
  intros Hle. apply wf_incl. intros b a (x & -> & Hn). by split.
Qed.

(** ** A loop on a single node *)

Section SelfLoop.
Context {V : Type} {D : AbstractValue V}.
Variable node : nat → V → V.

Local Abbreviation hooks := (base_analyzer node (λ _ _ a, a)).
Local Abbreviation loop :=
  (cycle_loop (G:=self_graph) (A:=hooks) self_wto (λ s, Some s) 0).

(** On {!self_graph} the candidate of a pass is the post of the node
    itself, which the pass has just stored. *)
Lemma self_pass k kind i v (st : state V nat) :
  ∃ st', ∀ c, c = join_loop_with (join_with bottom (node 0 v)) bottom →
    loop (S k) kind i v st =
      match cycle_update (A:=hooks) 0 kind i v c with
      | Break new_pre => Some (set_pre 0 new_pre st')
      | Continue kind' i' v' => loop k kind' i' v' st'
      end.
Proof.
  eexists. intros c ->. rewrite cycle_loop_pass. unfold join_edges. simpl.
  rewrite post_of_set_post. by destruct (decide (0 = 0)).
Qed.

Lemma self_run_none fuel init :
  (∀ st, loop fuel Increasing 1%N (join_with bottom bottom) st = None) →
  run (G:=self_graph) (A:=hooks) self_wto fuel init fresh = None.
Proof.
  intros Hl. rewrite run_unfold. unfold iterate. simpl components.
  rewrite visit_seq_cons, visit_cycle. unfold join_edges. simpl.
  change (post_of (set_pre 0 init fresh) 0) with (bottom : V).
  by rewrite Hl.
Qed.

Lemma self_run_some fuel init :
  (∀ st, ∃ r, loop fuel Increasing 1%N (join_with bottom bottom) st = Some r) →
  ∃ r, run (G:=self_graph) (A:=hooks) self_wto fuel init fresh = Some r.
Proof.
  intros Hl. rewrite run_unfold. unfold iterate. simpl components.
  rewrite visit_seq_cons, visit_cycle. unfold join_edges. simpl.
  change (post_of (set_pre 0 init fresh) 0) with (bottom : V).
  match goal with
  | |- context [cycle_loop _ _ _ _ _ _ _ ?s] => destruct (Hl s) as [r ->]
  end.
  by eexists.
Qed.

End SelfLoop.

(** ** A finite domain on which the decreasing iterations never stop *)

Lemma quad_leq_trans (a b c : quad) :
  quad_leq a b = true → quad_leq b c = true → quad_leq a c = true.
Proof. by destruct a, b, c. Qed.

Lemma quad_join_upper (a b : quad) :
  quad_leq a (quad_join a b) = true ∧ quad_leq b (quad_join a b) = true.
Proof. by destruct a, b. Qed.

Lemma quad_ascending_chains_finite :
  well_founded (strictly_above (D:=quad_domain)).
Proof.
  assert (Acc (strictly_above (D:=quad_domain)) QTop) as HT.
  { constructor. by intros [] [??]. }
  assert (Acc (strictly_above (D:=quad_domain)) QA) as HA.
  { constructor. by intros [] [??]. }
  assert (Acc (strictly_above (D:=quad_domain)) QB) as HB.
  { constructor. by intros [] [??]. }
  intros []; [|done..]. constructor. by intros [] [??].
Qed.

(** Once the decreasing phase holds [QA] or [QB] it alternates between
    them. *)
Lemma swap_alternates k :
  ∀ i st,
    cycle_loop (D:=quad_domain) (G:=self_graph) (A:=swap_analyzer)
      self_wto (λ s, Some s) 0 k Decreasing i QA st = None
    ∧ cycle_loop (D:=quad_domain) (G:=self_graph) (A:=swap_analyzer)
        self_wto (λ s, Some s) 0 k Decreasing i QB st = None.
Proof.
  induction k as [|k IH]; intros i st; [done|]. unfold swap_analyzer in *. split.
  - destruct (self_pass (D:=quad_domain) (λ _ a, swap a) k Decreasing i QA st)
      as [st' E]. rewrite (E QB eq_refl). apply IH.
  - destruct (self_pass (D:=quad_domain) (λ _ a, swap a) k Decreasing i QB st)
      as [st' E]. rewrite (E QA eq_refl). apply IH.
Qed.


(** ** Loops that need as many passes as the analysis asks for *)

Lemma counting_update limit i v :
  v < limit →
  cycle_update (A:=counting_analyzer limit) 0 Increasing i v (S v)
    = Continue Increasing (incr i) (S v).
Proof.
  intros Hv.
  unfold cycle_update, counting_analyzer, base_analyzer,
    default_is_increasing_iterations_fixpoint, default_extrapolate.
  cbn [is_increasing_iterations_fixpoint extrapolate leq join_iter_with
       widen_with max_domain].
  destruct (Nat.leb_spec (S v) v) as [?|_]; [lia|].
  destruct (i <=? 1)%N; f_equal; lia.
Qed.

Lemma counting_last_update limit i :
  ∃ r, cycle_update (A:=counting_analyzer limit) 0 Increasing i limit limit
       = Break r.
Proof.
  exists limit.
  unfold cycle_update, counting_analyzer, base_analyzer,
    default_is_increasing_iterations_fixpoint,
    default_is_decreasing_iterations_fixpoint, default_refine.
  cbn [is_increasing_iterations_fixpoint is_decreasing_iterations_fixpoint
       refine leq narrow_with max_domain].
  rewrite Nat.leb_refl. cbv beta iota. by rewrite Nat.leb_refl.
Qed.

Lemma counting_pass limit k i v (st : state nat nat) :
  v < limit →
  ∃ st',
    cycle_loop (D:=max_domain) (G:=self_graph) (A:=counting_analyzer limit)
      self_wto (λ s, Some s) 0 (S k) Increasing i v st
    = cycle_loop (D:=max_domain) (G:=self_graph) (A:=counting_analyzer limit)
        self_wto (λ s, Some s) 0 k Increasing (incr i) (S v) st'.
Proof.
  intros Hv.
  destruct (self_pass (D:=max_domain) (λ _ a, S a `min` limit) k Increasing i v st)
    as [st' E].
  exists st'. etrans; [apply (E (S v))|].
  { change (S v = Nat.max (Nat.max 0 (Nat.min (S v) limit)) 0). lia. }
  pose proof (counting_update limit i v Hv) as U.
  unfold counting_analyzer in *. by rewrite U.
Qed.

Lemma counting_last_pass limit k i (st : state nat nat) :
  ∃ r,
    cycle_loop (D:=max_domain) (G:=self_graph) (A:=counting_analyzer limit)
      self_wto (λ s, Some s) 0 (S k) Increasing i limit st = Some r.
Proof.
  destruct (self_pass (D:=max_domain) (λ _ a, S a `min` limit) k Increasing i limit st)
    as [st' E].
  destruct (counting_last_update limit i) as [r U].
  eexists. etrans; [apply (E limit)|].
  { change (limit = Nat.max (Nat.max 0 (Nat.min (S limit) limit)) 0). lia. }
  unfold counting_analyzer in *. by rewrite U.
Qed.

Lemma counting_needs_passes limit k :
  ∀ i v (st : state nat nat), v + k ≤ limit →
    cycle_loop (D:=max_domain) (G:=self_graph) (A:=counting_analyzer limit)
      self_wto (λ s, Some s) 0 k Increasing i v st = None.
Proof.
  induction k as [|k IH]; intros i v st Hv; [done|].
  destruct (counting_pass limit k i v st) as [st' ->]; [lia|].
  apply IH. lia.
Qed.

Lemma counting_returns limit d :
  ∀ i v (st : state nat nat), v + d = limit →
    ∃ r,
      cycle_loop (D:=max_domain) (G:=self_graph) (A:=counting_analyzer limit)
        self_wto (λ s, Some s) 0 (S d) Increasing i v st = Some r.
Proof.
  induction d as [|d IH]; intros i v st Hv.
  - replace v with limit by lia. apply counting_last_pass.
  - destruct (counting_pass limit (S d) i v st) as [st' ->]; [lia|].
    apply IH. lia.
Qed.


(** ** The reachability domain *)

Lemma flag_widening_free : widening_free (D:=flag_domain).
Proof.
  split; [by intros [] [] []|]. split; [by intros [] []|].
  split; [by intros [] []|]. split; [done|].
  assert (Acc (strictly_above (D:=flag_domain)) true) as HT.
  { constructor. by intros [] [??]. }
  intros []; [done|]. constructor. by intros [] [??].
Qed.

Lemma flag_narrowing_finite : well_founded (narrows_strictly (D:=flag_domain)).
Proof.
  assert (Acc (narrows_strictly (D:=flag_domain)) false) as HF.
  { constructor. by intros b ([] & _ & ?). }
  intros []; [|done]. constructor. intros [] (x & E & ?); [done|exact HF].
Qed.


(** ** A counter in a loop *)

Section LoopExamples.
#[local] Existing Instance ub_domain.
#[local] Existing Instance loop_graph.

Lemma loop_wto_nodup : NoDup (nodes_of_seq (components loop_wto)).
Proof. by apply (bool_decide_unpack _). Qed.

(** With the default hooks the analysis of [while (x <= 9) x++] finds
    the bound 10 at the head and everywhere after it. *)
Example guarded_loop_invariants :
  final_pre (run (A:=guard_analyzer) loop_wto 4 (Fin 0) fresh) 1 = Some (Fin 10)
  ∧ final_post (run (A:=guard_analyzer) loop_wto 4 (Fin 0) fresh) 1 = Some (Fin 10)
  ∧ final_pre (run (A:=guard_analyzer) loop_wto 4 (Fin 0) fresh) 2 = Some (Fin 10)
  ∧ run (A:=guard_analyzer) loop_wto 3 (Fin 0) fresh = None.
Proof. done. Qed.

(** C1, as stated, fails at the head of a cycle: in a client that stops
    the decreasing iterations after the first one, the loop stores the
    refined bound 10 as [pre(1)] while [post(1)] is still the transfer
    of the unbounded value of the last pass, whatever the bound on the
    passes under which [run] returns. *)
Lemma capped_narrowing_leaves_stale_post :
  analyze_node (Analyzer:=capped_analyzer) 1 (Fin 10) = Fin 10
  ∧ ∀ fuel, 3 ≤ fuel →
      final_pre (run (A:=capped_analyzer) loop_wto fuel (Fin 0) fresh) 1
        = Some (Fin 10)
      ∧ final_post (run (A:=capped_analyzer) loop_wto fuel (Fin 0) fresh) 1
          = Some Inf.
Proof.
  split; [done|]. intros fuel Hf.
  destruct (run (A:=capped_analyzer) loop_wto 3 (Fin 0) fresh) as [r|] eqn:E;
    [|done].
  rewrite (run_mono loop_wto 3 fuel _ _ r Hf E).
  revert E. vm_compute. by intros [= <-].
Qed.

(** On the guarded loop: the body node [2] is consistent, and the head
    [1] holds the refined bound. *)
Lemma post_consistent_on_vertices_witness :
  ∃ st tr,
    run (A:=guard_analyzer) loop_wto 4 (Fin 0) fresh = Some (st, tr)
    ∧ post_of st 2 = analyze_node (Analyzer:=guard_analyzer) 2 (pre_of st 2)
    ∧ ∃ i v new_pre,
        post_of st 1 = analyze_node (Analyzer:=guard_analyzer) 1 v
        ∧ pre_of st 1 = refine (Analyzer:=guard_analyzer) 1 i v new_pre
        ∧ is_decreasing_iterations_fixpoint (Analyzer:=guard_analyzer) v
            (refine (Analyzer:=guard_analyzer) 1 i v new_pre) = true.
Proof.
  destruct (run (A:=guard_analyzer) loop_wto 4 (Fin 0) fresh) as [[st tr]|] eqn:E;
    [|by vm_compute in E].
  exists st, tr. split; [done|].
  destruct (post_consistent_on_vertices (A:=guard_analyzer) loop_wto 4 (Fin 0)
              fresh st tr loop_wto_nodup E) as (Hv & Hh & _).
  split; [apply Hv|apply Hh]; by apply (bool_decide_unpack _).
Defined.

(** The first pass on the guarded loop: the body stores the bound 1 as
    [post(2)], and the pass goes on from the bound 1 read back from
    it. *)
Lemma cycle_pass_rereads_post_witness :
  ∃ st3,
    same_content st3
      (visit_vertex (A:=guard_analyzer) 2
         (set_post 1 (Fin 0) (set_pre 1 (Fin 0) fresh)))
    ∧ cycle_loop (A:=guard_analyzer) loop_wto
        (visit_seq (visit (A:=guard_analyzer) loop_wto 2) [Vertex 2])
        1 2 Increasing 1%N (Fin 0) fresh
      = cycle_loop (A:=guard_analyzer) loop_wto
          (visit_seq (visit (A:=guard_analyzer) loop_wto 2) [Vertex 2])
          1 1 Increasing (incr 1) (Fin 1) st3.
Proof.
  exact (cycle_pass_rereads_post (A:=guard_analyzer) loop_wto
           (visit_seq (visit (A:=guard_analyzer) loop_wto 2) [Vertex 2])
           1 1 Increasing 1%N (Fin 0) fresh _ eq_refl).
Defined.

(** The visit of the guarded loop returns after storing a refined
    value. *)
Lemma cycle_phases_witness :
  ∃ r,
    visit (A:=guard_analyzer) loop_wto 4 (Cycle 1 [Vertex 2])
      (visit_vertex (A:=guard_analyzer) 0 (set_pre 0 (Fin 0) fresh)) = Some r
    ∧ ∃ i v new_pre st',
        is_decreasing_iterations_fixpoint (Analyzer:=guard_analyzer) v
          (refine (Analyzer:=guard_analyzer) 1 i v new_pre) = true
        ∧ r = set_pre 1 (refine (Analyzer:=guard_analyzer) 1 i v new_pre) st'.
Proof.
  destruct (visit (A:=guard_analyzer) loop_wto 4 (Cycle 1 [Vertex 2])
              (visit_vertex (A:=guard_analyzer) 0 (set_pre 0 (Fin 0) fresh)))
    as [r|] eqn:E; [|by vm_compute in E].
  exists r. split; [done|].
  exact (proj2 (proj2 (proj2 (cycle_phases (A:=guard_analyzer) loop_wto)))
           4 1 [Vertex 2] _ r E).
Defined.

End LoopExamples.

(** ** The entry node *)

Section EntryExamples.
#[local] Existing Instance ub_domain.


(** The straight line [0 → 1 → 2] where every node adds one. *)
Example straight_line_invariants :
  run (G:=line_graph) (A:=incr_analyzer) line_wto 0 (Fin 0) fresh
  = Some (Build_state {[0 := Fin 0; 1 := Fin 1; 2 := Fin 2]}
                      {[0 := Fin 1; 1 := Fin 2; 2 := Fin 3]},
          [ProcessPre 0 (Fin 0); ProcessPost 0 (Fin 1);
           ProcessPre 1 (Fin 1); ProcessPost 1 (Fin 2);
           ProcessPre 2 (Fin 2); ProcessPost 2 (Fin 3)]).
Proof. by vm_compute. Qed.


(** On the straight line the sinks are called for [0], [1], [2] in
    turn. *)
Lemma run_processes_in_wto_order_witness :
  ∃ st tr,
    run (G:=line_graph) (A:=incr_analyzer) line_wto 0 (Fin 0) fresh = Some (st, tr)
    ∧ tr = concat (map (λ n, [ProcessPre n (pre_of st n); ProcessPost n (post_of st n)])
                       [0; 1; 2]).
Proof.
  destruct (run (G:=line_graph) (A:=incr_analyzer) line_wto 0 (Fin 0) fresh)
    as [[st tr]|] eqn:E; [|by vm_compute in E].
  exists st, tr. split; [done|].
  destruct (run_processes_in_wto_order (G:=line_graph) (A:=incr_analyzer)
              line_wto 0 (Fin 0) fresh st tr E) as (s & _ & _ & _ & Etr).
  exact Etr.
Defined.

(** A node that no component of the WTO names keeps bottom. *)
Example unreachable_node_bottom :
  final_pre (run (G:=line_graph) (A:=incr_analyzer) line_wto 0 (Fin 0) fresh) 7
    = Some Bot
  ∧ final_post (run (G:=line_graph) (A:=incr_analyzer) line_wto 0 (Fin 0) fresh) 7
      = Some Bot.
Proof. done. Qed.

(** When the entry node heads a cycle the cycle visit starts from
    bottom and the incoming edges, and overwrites the initial value. *)
Example entry_cycle_drops_init :
  final_pre (run (G:=self_graph) (A:=guard_analyzer) self_wto 1 (Fin 7) fresh) 0
  = Some Bot.
Proof. done. Qed.

(** Reading from empty tables returns bottom, and two reads before
    [run] change nothing to what it computes. *)
Lemma reads_are_pure_witness :
  (get (∅ : gmap nat ub) 0).1 = Bot
  ∧ option_Forall2 (λ r1 r2, same_content r1.1 r2.1 ∧ r1.2 = r2.2)
      (run (G:=line_graph) (A:=incr_analyzer) line_wto 0 (Fin 0)
         (post 2 (pre 1 fresh).2).2)
      (run (G:=line_graph) (A:=incr_analyzer) line_wto 0 (Fin 0) fresh).
Proof.
  destruct (reads_are_pure (G:=line_graph) (A:=incr_analyzer) line_wto)
    as (Hnone & _ & _ & _ & Hread & Hrun & _).
  split; [by apply Hnone|]. apply Hrun.
  etrans; [apply Hread|apply Hread].
Defined.

End EntryExamples.

(** ** Nested cycles *)

Section NestedExamples.
#[local] Existing Instance flag_domain.
#[local] Existing Instance nested_graph.
#[local] Existing Instance flag_analyzer.

(** The predecessors of the inner head [2]: [1], in the outer cycle
    only, is incoming; [3], in the inner cycle, is a back edge.  Those
    of the outer head [1]: [0] is incoming and [3] a back edge. *)
Example nested_classification :
  is_incoming nested_wto 2 1 = true ∧ is_back_edge nested_wto 2 3 = true
  ∧ is_incoming nested_wto 1 0 = true ∧ is_back_edge nested_wto 1 3 = true.
Proof. done. Qed.

(** The seed of the inner cycle does not depend on the post of its back
    edge [3]. *)
Lemma cycle_seed_from_incoming_witness :
  foldl (λ acc p, join_with acc (analyze_edge p 2 (post_of (set_post 3 true fresh) p)))
        bottom
        (List.filter (λ p, negb (nesting_gt (nesting nested_wto p) (nesting nested_wto 2)))
                     (predecessors 2))
  = foldl (λ acc p, join_with acc (analyze_edge p 2 (post_of fresh p)))
          bottom
          (List.filter (λ p, negb (nesting_gt (nesting nested_wto p) (nesting nested_wto 2)))
                       (predecessors 2)).
Proof.
  apply (proj2 (proj2 (cycle_seed_from_incoming nested_wto 0 2 [Vertex 3] fresh))
           (set_post 3 true fresh)).
  intros p Hp. apply list_elem_of_singleton in Hp as ->. reflexivity.
Defined.

End NestedExamples.

(** ** Monotone callbacks and a loop *)

Section SaturatingExamples.
#[local] Existing Instance ub_top_domain.

Lemma ub_join_monotone : monotone2 ub_join.
Proof.
  intros [|x|] [|x'|] [|y|] [|y'|]; simpl; try done;
    rewrite ?Nat.leb_le; lia.
Qed.

Lemma ub_meet_monotone : monotone2 ub_meet.
Proof.
  intros [|x|] [|x'|] [|y|] [|y'|]; simpl; try done;
    rewrite ?Nat.leb_le; lia.
Qed.

Lemma step_below_ten_monotone : monotone step_below_ten.
Proof.
  intros [|x|] [|y|]; simpl; try done.
  - destruct (Nat.leb_spec x 9), (Nat.leb_spec y 9); cbn [ub_leq];
      rewrite ?Nat.leb_le; lia.
  - by destruct (x <=? 9).
Qed.

Lemma saturating_callbacks_monotone :
  monotone_callbacks (A:=saturating_analyzer).
Proof.
  split; [|split; [|split]].
  - intros [|[|[|n]]] a b Hab; [done..|by apply step_below_ten_monotone|done].
  - by intros p n a b.
  - intros h i a a' b b' Ha Hb. simpl. unfold default_extrapolate.
    destruct (i <=? 1)%N; [by apply ub_join_monotone|done].
  - intros h i. apply ub_meet_monotone.
Qed.


Lemma fresh_below_fresh : below (fresh : state ub nat) fresh.
Proof. done. Qed.


End SaturatingExamples.

(** ** More on the tables *)

Section Tables.
Context {V Node : Type} `{Countable Node}.
Context {D : AbstractValue V}.

Implicit Types (tbl : gmap Node V) (st : state V Node) (n m : Node) (v w : V).

Lemma dom_set tbl n v : dom (set tbl n v) = {[n]} ∪ dom tbl.
Proof. by rewrite set_insert, dom_insert_L. Qed.

Lemma dom_get tbl n : dom (get tbl n).2 = {[n]} ∪ dom tbl.
Proof.
  unfold get. destruct (tbl !! n) as [v|] eqn:E; simpl.
  - apply elem_of_dom_2 in E. symmetry. apply subseteq_union_1_L.
    by apply singleton_subseteq_l.
  - by rewrite dom_insert_L.
Qed.

(** X1: a write followed by a read of the same node returns the written
    value and inserts nothing; a second write to the node replaces the
    first; writes to two different nodes can be swapped; a write leaves
    the entries of the other nodes alone and adds at most the key
    written. *)
Theorem write_then_read tbl n v :
  get (set tbl n v) n = (v, set tbl n v)
  ∧ (∀ w, set (set tbl n v) n w = set tbl n w)
  ∧ (∀ m w, n ≠ m → set (set tbl n v) m w = set (set tbl m w) n v)
  ∧ (∀ m, n ≠ m → set tbl n v !! m = tbl !! m)
  ∧ dom (set tbl n v) = {[n]} ∪ dom tbl.
Proof.
  split; [|split; [|split; [|split]]].
  - unfold get. by rewrite set_insert, lookup_insert_eq.
  - intros w. by rewrite !set_insert, insert_insert_eq.
  - intros m w Hne. rewrite !set_insert. by apply insert_insert_ne.
  - intros m Hne. by rewrite set_insert, lookup_insert_ne.
  - apply dom_set.
Qed.

(** X2: a read adds at most the key read, keeps every entry of the
    table as it is, binds a key it adds to bottom, and changes nothing
    when the key is there; reading the same node again returns the same
    value and leaves the table as the first read left it. *)
Theorem read_inserts_bottom_once tbl n :
  dom (get tbl n).2 = {[n]} ∪ dom tbl
  ∧ (∀ m w, tbl !! m = Some w → (get tbl n).2 !! m = Some w)
  ∧ (∀ m w, (get tbl n).2 !! m = Some w →
       tbl !! m = Some w ∨ (m = n ∧ w = bottom ∧ tbl !! n = None))
  ∧ (n ∈ dom tbl → (get tbl n).2 = tbl)
  ∧ get (get tbl n).2 n = get tbl n.
Proof.
  split; [apply dom_get|]. unfold get.
  destruct (tbl !! n) as [v|] eqn:E; simpl.
  - rewrite E. repeat split; auto.
  - rewrite lookup_insert_eq. repeat split.
    + intros m w Em. rewrite lookup_insert_ne; [done|]. intros ->. congruence.
    + intros m w. rewrite lookup_insert. destruct (decide (n = m)) as [->|]; [|auto].
      intros [= <-]. by right.
    + intros Hn. apply elem_of_dom in Hn as [x Hx]. congruence.
Qed.

End Tables.

(** ** What a run may touch *)

Section Touch.
Context {V Node : Type} {EqN : EqDecision Node} {CntN : Countable Node}.
Context {D : AbstractValue V} {G : GraphTrait Node} {A : Analyzer V Node}.
Variable wto : Wto Node.

Implicit Types (st s r : state V Node) (n m h p : Node) (v : V)
  (c : component Node) (cs body : list (component Node))
  (vb : state V Node → option (state V Node)).

(** A property of the tables kept by the writes to the nodes in [W], by
    the reads of [pre] of those nodes and by the reads of [post] of the
    nodes in [W] or [R]. *)
Variable Φ : state V Node → Prop.
Variables W R : Node → Prop.
Hypothesis Φ_set_pre : ∀ m v s, W m → Φ s → Φ (set_pre m v s).
Hypothesis Φ_set_post : ∀ m v s, W m → Φ s → Φ (set_post m v s).
Hypothesis Φ_pre : ∀ m s, W m → Φ s → Φ (pre m s).2.
Hypothesis Φ_post : ∀ m s, W m ∨ R m → Φ s → Φ (post m s).2.

Lemma collect_preserves keep n ps v s :
  (∀ p, p ∈ ps → R p) → Φ s → Φ (collect keep n ps v s).2.
Proof using Φ_post.
  revert v s. induction ps as [|p ps IH]; intros v s Hps HΦ; simpl; [done|].
  assert (∀ q, q ∈ ps → R q) as Hps' by (intros q Hq; apply Hps; by right).
  destruct (keep p); [|by apply IH].
  pose proof (Φ_post p s (or_intror (Hps p (list_elem_of_here _ _))) HΦ) as H1.
  destruct (post p s) as [x s']. by apply IH.
Qed.

Lemma visit_vertex_preserves n s :
  W n → (∀ p, p ∈ predecessors n → R p) → Φ s → Φ (visit_vertex n s).
Proof using Φ_set_pre Φ_set_post Φ_pre Φ_post.
  intros Hn Hp HΦ. unfold visit_vertex.
  assert (Φ (if decide (n = entry) then pre n s else (bottom, s)).2) as H1.
  { destruct (decide (n = entry)); [by apply Φ_pre|done]. }
  destruct (if decide (n = entry) then pre n s else (bottom, s)) as [x s1].
  pose proof (collect_preserves (λ _, true) n (predecessors n) x s1 Hp H1) as H2.
  destruct (collect _ n (predecessors n) x s1) as [y s2].
  by apply Φ_set_post, Φ_set_pre.
Qed.

Lemma cycle_loop_preserves vb h :
  W h → (∀ p, p ∈ predecessors h → R p) →
  (∀ s r, vb s = Some r → Φ s → Φ r) →
  ∀ k kind i v s r, cycle_loop wto vb h k kind i v s = Some r → Φ s → Φ r.
Proof using Φ_set_pre Φ_set_post Φ_post.
  intros Hh Hp Hvb. induction k as [|k IH]; intros kind i v s r; [done|].
  rewrite cycle_loop_pass. destruct (vb _) as [st2|] eqn:Eb; [|done].
  intros E HΦ.
  assert (Φ (after_joins wto h st2)) as H2.
  { unfold after_joins. do 2 (apply collect_preserves; [done|]).
    apply (Hvb _ _ Eb). by apply Φ_set_post, Φ_set_pre. }
  destruct (cycle_update _ _ _ _ _) as [np|kind' i' v'].
  - injection E as <-. by apply Φ_set_pre.
  - by apply (IH _ _ _ _ _ E).
Qed.

Lemma visit_preserves c :
  (∀ n, n ∈ nodes_of c → W n ∧ ∀ p, p ∈ predecessors n → R p) →
  ∀ fuel s r, visit wto fuel c s = Some r → Φ s → Φ r.
Proof using Φ_set_pre Φ_set_post Φ_pre Φ_post.
  induction c as [m|h body IH] using component_ind'; intros Hc fuel s r E HΦ.
  { injection E as <-. destruct (Hc m) as [Hm Hp]; [by left|].
    by apply visit_vertex_preserves. }
  destruct (Hc h) as [Hh Hp]; [by left|].
  rewrite visit_cycle in E.
  assert (∀ s0 r0, visit_seq (visit wto fuel) body s0 = Some r0 → Φ s0 → Φ r0)
    as Hvb.
  { assert (∀ n, n ∈ concat (map nodes_of body) →
              W n ∧ ∀ p, p ∈ predecessors n → R p) as Hb.
    { intros n Hn. apply Hc. by right. }
    apply visit_seq_keeps. clear E HΦ Hc.
    induction IH as [|c body Hcb _ IHb]; constructor; simpl in Hb.
    - intros s0 r0. apply Hcb. intros n Hn. apply Hb, elem_of_app. by left.
    - apply IHb. intros n Hn. apply Hb, elem_of_app. by right. }
  eapply cycle_loop_preserves; [exact Hh|exact Hp|exact Hvb|exact E|].
  by apply collect_preserves.
Qed.

Lemma visit_seq_preserves cs :
  (∀ n, n ∈ nodes_of_seq cs → W n ∧ ∀ p, p ∈ predecessors n → R p) →
  ∀ fuel s r, visit_seq (visit wto fuel) cs s = Some r → Φ s → Φ r.
Proof using Φ_set_pre Φ_set_post Φ_pre Φ_post.
  intros Hcs fuel. apply visit_seq_keeps, Forall_forall. intros c Hc s r.
  apply visit_preserves. intros n Hn. apply Hcs. unfold nodes_of_seq.
  apply list_elem_of_In, in_concat. exists (nodes_of c).
  split; [apply in_map|]; by apply list_elem_of_In.
Qed.

Lemma process_node_preserves n s : W n → Φ s → Φ (process_node n s).2.
Proof using Φ_pre Φ_post.
  intros Hn HΦ. unfold process_node.
  pose proof (Φ_pre n s Hn HΦ) as H1. destruct (pre n s) as [x s1].
  pose proof (Φ_post n s1 (or_introl Hn) H1) as H2. by destruct (post n s1).
Qed.

Lemma process_preserves c :
  (∀ n, n ∈ nodes_of c → W n) → ∀ s, Φ s → Φ (process c s).2.
Proof using Φ_pre Φ_post.
  induction c as [m|h body IH] using component_ind'; intros Hc s HΦ.
  { apply process_node_preserves; [|done]. apply Hc. by left. }
  rewrite process_cycle.
  assert (Φ (process_node h s).2) as H1.
  { apply process_node_preserves; [|done]. apply Hc. by left. }
  assert (∀ n, n ∈ concat (map nodes_of body) → W n) as Hb.
  { intros n Hn. apply Hc. by right. }
  revert H1. generalize (process_node h s).1 (process_node h s).2. clear HΦ Hc.
  induction IH as [|c body Hcb _ IHb]; intros tr s1 H1; simpl; [done|].
  simpl in Hb.
  assert (Φ (process c s1).2) as H2.
  { apply Hcb; [|done]. intros n Hn. apply Hb, elem_of_app. by left. }
  destruct (process c s1) as [tr' s2]. apply IHb; [|done].
  intros n Hn. apply Hb, elem_of_app. by right.
Qed.

Lemma process_seq_preserves cs tr s :
  (∀ n, n ∈ nodes_of_seq cs → W n) → Φ s → Φ (process_seq cs tr s).2.
Proof using Φ_pre Φ_post.
  revert tr s. induction cs as [|c cs IH]; intros tr s Hcs HΦ; simpl; [done|].
  unfold nodes_of_seq in Hcs. simpl in Hcs.
  assert (Φ (process c s).2) as H2.
  { apply process_preserves; [|done]. intros n Hn. apply Hcs, elem_of_app. by left. }
  destruct (process c s) as [tr' s2]. apply IH; [|done].
  intros n Hn. apply Hcs, elem_of_app. by right.
Qed.

(** [run] keeps the property if the initial write does. *)
Lemma run_preserves fuel init s (res : state V Node * list (event V Node)) :
  (∀ n, n ∈ nodes_of_seq (components wto) →
        W n ∧ ∀ p, p ∈ predecessors n → R p) →
  run wto fuel init s = Some res → Φ (set_pre entry init s) → Φ res.1.
Proof using Φ_set_pre Φ_set_post Φ_pre Φ_post.
  intros Hw. rewrite run_unfold.
  destruct (iterate _ _ _) as [s1|] eqn:E; [|done]. intros [= <-] HΦ. simpl.
  apply process_seq_preserves; [intros n Hn; by apply Hw|].
  revert E HΦ. by apply visit_seq_preserves.
Qed.

End Touch.

(** ** The keys of the tables *)

Section Keys.
Context {V Node : Type} {EqN : EqDecision Node} {CntN : Countable Node}.
Context {D : AbstractValue V} {G : GraphTrait Node} {A : Analyzer V Node}.
Variable wto : Wto Node.

Implicit Types (st s r : state V Node) (n m h p : Node) (v : V)
  (c : component Node) (cs body : list (component Node))
  (vb : state V Node → option (state V Node)).

Lemma keys_set_pre m v s :
  dom (st_pre (set_pre m v s)) = {[m]} ∪ dom (st_pre s)
  ∧ st_post (set_pre m v s) = st_post s.
Proof. split; [apply dom_set|done]. Qed.

Lemma keys_set_post m v s :
  dom (st_post (set_post m v s)) = {[m]} ∪ dom (st_post s)
  ∧ st_pre (set_post m v s) = st_pre s.
Proof. split; [apply dom_set|done]. Qed.

Lemma keys_pre m s :
  dom (st_pre (pre m s).2) = {[m]} ∪ dom (st_pre s)
  ∧ st_post (pre m s).2 = st_post s.
Proof.
  unfold pre. pose proof (dom_get (st_pre s) m) as E.
  by destruct (get (st_pre s) m) as [x t].
Qed.

Lemma keys_post m s :
  dom (st_post (post m s).2) = {[m]} ∪ dom (st_post s)
  ∧ st_pre (post m s).2 = st_pre s.
Proof.
  unfold post. pose proof (dom_get (st_post s) m) as E.
  by destruct (get (st_post s) m) as [x t].
Qed.

Lemma grows_refl s : grows s s.
Proof. by split. Qed.

Lemma grows_trans s1 s2 s3 : grows s1 s2 → grows s2 s3 → grows s1 s3.
Proof. intros [H1 H2] [H3 H4]. split; by etrans. Qed.

Lemma grows_set_pre m v s : grows s (set_pre m v s).
Proof.
  split; simpl; [rewrite dom_set; apply union_subseteq_r|done].
Qed.

Lemma grows_set_post m v s : grows s (set_post m v s).
Proof.
  split; simpl; [done|rewrite dom_set; apply union_subseteq_r].
Qed.

Lemma grows_pre m s : grows s (pre m s).2.
Proof.
  destruct (keys_pre m s) as [E1 E2]. unfold grows. rewrite E1, E2.
  split; [apply union_subseteq_r|done].
Qed.

Lemma grows_post m s : grows s (post m s).2.
Proof.
  destruct (keys_post m s) as [E1 E2]. unfold grows. rewrite E1, E2.
  split; [done|apply union_subseteq_r].
Qed.

(** Every operation of the traversal only adds keys. *)
Lemma grows_ops s0 :
  (∀ m v s, True → grows s0 s → grows s0 (set_pre m v s))
  ∧ (∀ m v s, True → grows s0 s → grows s0 (set_post m v s))
  ∧ (∀ m s, True → grows s0 s → grows s0 (pre m s).2)
  ∧ (∀ m s, True ∨ True → grows s0 s → grows s0 (post m s).2).
Proof.
  split; [|split; [|split]]; intros; (eapply grows_trans; [eassumption|]).
  - apply grows_set_pre.
  - apply grows_set_post.
  - apply grows_pre.
  - apply grows_post.
Qed.

Lemma grows_collect keep n ps v s : grows s (collect keep n ps v s).2.
Proof.
  destruct (grows_ops s) as (_ & _ & _ & H4).
  apply (collect_preserves (grows s) (λ _, True) (λ _, True) H4);
    [done|apply grows_refl].
Qed.

Lemma grows_after_joins h s : grows s (after_joins wto h s).
Proof. unfold after_joins. eapply grows_trans; apply grows_collect. Qed.

Lemma grows_visit_seq cs fuel s r :
  visit_seq (visit wto fuel) cs s = Some r → grows s r.
Proof.
  destruct (grows_ops s) as (H1 & H2 & H3 & H4). intros E.
  apply (visit_seq_preserves wto (grows s) (λ _, True) (λ _, True)
           H1 H2 H3 H4 cs (λ _ _, conj I (λ _ _, I)) fuel s r E), grows_refl.
Qed.

Lemma grows_process_seq cs tr s : grows s (process_seq cs tr s).2.
Proof.
  destruct (grows_ops s) as (_ & _ & H3 & H4).
  apply (process_seq_preserves (grows s) (λ _, True) (λ _, True) H3 H4);
    [done|apply grows_refl].
Qed.

Lemma stored_grows n s r : grows s r → stored n s → stored n r.
Proof.
  intros [H1 H2] (Ha & Hb & Hc).
  split; [by apply H1|split; [by apply H2|]]. intros p Hp. by apply H2, Hc.
Qed.

(** The predecessor loop leaves an entry for the post of every
    predecessor it selects. *)
Lemma collect_reads keep n ps v s p :
  p ∈ ps → keep p = true → p ∈ dom (st_post (collect keep n ps v s).2).
Proof.
  revert v s. induction ps as [|q ps IH]; intros v s Hp Hk;
    [by apply elem_of_nil in Hp|].
  simpl. apply elem_of_cons in Hp as [->|Hp].
  - rewrite Hk. pose proof (keys_post q s) as [E _].
    destruct (post q s) as [x s']. simpl in E.
    apply (grows_collect keep n ps (join_with v (analyze_edge q n x)) s').
    rewrite E. by apply elem_of_union_l, elem_of_singleton.
  - destruct (keep q); [|by apply IH]. destruct (post q s) as [x s']. by apply IH.
Qed.

Lemma visit_vertex_stored n s : stored n (visit_vertex n s).
Proof.
  unfold visit_vertex.
  destruct (if decide (n = entry) then pre n s else (bottom, s)) as [x s1].
  pose proof (λ p Hp, collect_reads (λ _, true) n (predecessors n) x s1 p Hp eq_refl)
    as Hr.
  destruct (collect _ n (predecessors n) x s1) as [y s2]. simpl in Hr.
  split; [|split]; simpl.
  - rewrite dom_set. by apply elem_of_union_l, elem_of_singleton.
  - rewrite dom_set. by apply elem_of_union_l, elem_of_singleton.
  - intros p Hp. rewrite dom_set. by apply elem_of_union_r, Hr.
Qed.

Lemma after_joins_reads h s p :
  p ∈ predecessors h → p ∈ dom (st_post (after_joins wto h s)).
Proof.
  intros Hp. unfold after_joins.
  destruct (is_back_edge wto h p) eqn:Eb.
  - by apply collect_reads.
  - apply (grows_collect (is_back_edge wto h) h (predecessors h) bottom).
    apply collect_reads; [done|]. unfold is_incoming. by rewrite Eb.
Qed.

(** The last pass of a loop that returns. *)
Lemma cycle_loop_last vb h k kind i v s r :
  cycle_loop wto vb h k kind i v s = Some r →
  ∃ i' v' s' s2,
    vb (set_post h (analyze_node h v') (set_pre h v' s')) = Some s2
    ∧ r = set_pre h (refine h i' v' (candidate wto h s2)) (after_joins wto h s2)
    ∧ is_decreasing_iterations_fixpoint v' (refine h i' v' (candidate wto h s2))
      = true.
Proof.
  revert kind i v s. induction k as [|k IH]; intros kind i v s; [done|].
  rewrite cycle_loop_pass. destruct (vb _) as [s2|] eqn:Eb; [|done].
  destruct (cycle_update _ _ _ _ _) as [np|kind' i' v'] eqn:Eu.
  - intros [= <-]. apply cycle_update_break in Eu as (i' & -> & Hd & _).
    by exists i', v, s, s2.
  - apply IH.
Qed.

Lemma visit_seq_stored fuel cs :
  Forall (λ c, ∀ s r, visit wto fuel c s = Some r →
               ∀ n, n ∈ nodes_of c → stored n r) cs →
  ∀ s r, visit_seq (visit wto fuel) cs s = Some r →
    ∀ n, n ∈ nodes_of_seq cs → stored n r.
Proof.
  induction 1 as [|c cs Hc _ IH]; intros s r E n Hn; [by apply elem_of_nil in Hn|].
  rewrite visit_seq_cons in E.
  destruct (visit wto fuel c s) as [s1|] eqn:E1; [|done].
  unfold nodes_of_seq in Hn. simpl in Hn. apply elem_of_app in Hn as [Hn|Hn].
  - apply (stored_grows n s1 r); [by eapply grows_visit_seq|]. by eapply Hc.
  - by eapply IH.
Qed.

(** A visit leaves an entry for the pre and the post of every node of the
    component and for the post of each of their predecessors. *)
Lemma visit_stored c :
  ∀ fuel s r, visit wto fuel c s = Some r → ∀ n, n ∈ nodes_of c → stored n r.
Proof.
  induction c as [m|h body IH] using component_ind'; intros fuel s r E n Hn.
  { injection E as <-. apply list_elem_of_singleton in Hn as ->.
    apply visit_vertex_stored. }
  rewrite visit_cycle in E.
  apply cycle_loop_last in E as (i & v & s' & s2 & Eb & -> & _).
  assert (grows s2 (set_pre h (refine h i v (candidate wto h s2))
                      (after_joins wto h s2))) as Hg.
  { eapply grows_trans; [apply grows_after_joins|apply grows_set_pre]. }
  simpl in Hn. apply elem_of_cons in Hn as [->|Hn].
  - split; [|split].
    + simpl. rewrite dom_set. by apply elem_of_union_l, elem_of_singleton.
    + apply Hg, (grows_visit_seq _ _ _ _ Eb). simpl. rewrite dom_set.
      by apply elem_of_union_l, elem_of_singleton.
    + intros p Hp. simpl. by apply after_joins_reads.
  - apply (stored_grows n s2); [done|].
    eapply visit_seq_stored; [|exact Eb|exact Hn].
    eapply Forall_impl; [exact IH|]. intros c Hc. apply Hc.
Qed.

Lemma iterate_stored fuel s r n :
  iterate wto fuel s = Some r → n ∈ nodes_of_seq (components wto) → stored n r.
Proof.
  intros E. eapply visit_seq_stored; [|exact E].
  apply Forall_forall. intros c _. apply visit_stored.
Qed.

(** A read of a key that is there changes nothing. *)
Lemma pre_stored n s : n ∈ dom (st_pre s) → pre n s = (pre_of s n, s).
Proof.
  intros Hn. apply elem_of_dom in Hn as [x Hx]. destruct s as [t1 t2].
  unfold pre, get, pre_of, content. simpl in *. by rewrite Hx.
Qed.

Lemma post_stored n s : n ∈ dom (st_post s) → post n s = (post_of s n, s).
Proof.
  intros Hn. apply elem_of_dom in Hn as [x Hx]. destruct s as [t1 t2].
  unfold post, get, post_of, content. simpl in *. by rewrite Hx.
Qed.

Lemma process_node_stored n s :
  stored n s → process_node n s = (sink_calls s [n], s).
Proof.
  intros (H1 & H2 & _). unfold process_node.
  by rewrite (pre_stored _ _ H1), (post_stored _ _ H2).
Qed.

Lemma process_seq_stored cs :
  Forall (λ c, ∀ s, (∀ n, n ∈ nodes_of c → stored n s) →
               process c s = (sink_calls s (nodes_of c), s)) cs →
  ∀ tr s, (∀ n, n ∈ nodes_of_seq cs → stored n s) →
    process_seq cs tr s = (tr ++ sink_calls s (nodes_of_seq cs), s).
Proof.
  induction 1 as [|c cs Hc _ IH]; intros tr s Hs; simpl.
  { by rewrite app_nil_r. }
  unfold nodes_of_seq in Hs. simpl in Hs.
  rewrite Hc by (intros n Hn; apply Hs, elem_of_app; by left).
  rewrite IH by (intros n Hn; apply Hs, elem_of_app; by right).
  unfold nodes_of_seq. simpl. by rewrite sink_calls_app, app_assoc.
Qed.

Lemma process_stored c :
  ∀ s, (∀ n, n ∈ nodes_of c → stored n s) →
    process c s = (sink_calls s (nodes_of c), s).
Proof.
  induction c as [m|h body IH] using component_ind'; intros s Hs.
  { apply process_node_stored, Hs. by left. }
  rewrite process_cycle, process_node_stored by (apply Hs; by left). simpl fst.
  simpl snd. rewrite (process_seq_stored body IH).
  - by rewrite <- sink_calls_app.
  - intros n Hn. apply Hs. by right.
Qed.

Lemma nodes_have_preds cs n p :
  n ∈ nodes_of_seq cs → p ∈ predecessors n → p ∈ preds_of_seq cs.
Proof.
  intros Hn Hp. unfold preds_of_seq. apply list_elem_of_In, in_concat.
  exists (predecessors n). split; [apply in_map|]; by apply list_elem_of_In.
Qed.

Lemma preds_have_nodes cs p :
  p ∈ preds_of_seq cs → ∃ n, n ∈ nodes_of_seq cs ∧ p ∈ predecessors n.
Proof.
  unfold preds_of_seq. intros Hp. apply list_elem_of_In, in_concat in Hp as (l & Hl & Hp).
  apply in_map_iff in Hl as (n & <- & Hn). exists n. split; by apply list_elem_of_In.
Qed.

(** X3: when [run] returns, the keys of the pre table are those it had
    before, the entry node and the nodes of the WTO; the keys of the post
    table are those it had before, the nodes of the WTO and their
    predecessors.  No entry is ever removed and no other node gets one. *)
Theorem run_table_keys fuel init st (res : state V Node * list (event V Node)) :
  run wto fuel init st = Some res →
  ∀ n,
    (n ∈ dom (st_pre res.1)
       ↔ n ∈ dom (st_pre st) ∨ n = entry ∨ n ∈ nodes_of_seq (components wto))
    ∧ (n ∈ dom (st_post res.1)
         ↔ n ∈ dom (st_post st) ∨ n ∈ nodes_of_seq (components wto)
           ∨ n ∈ preds_of_seq (components wto)).
Proof.
  intros E n.
  pose (X := dom (st_pre st) ∪ {[entry]}
             ∪ list_to_set (nodes_of_seq (components wto)) : gset Node).
  pose (Y := dom (st_post st) ∪ list_to_set (nodes_of_seq (components wto))
             ∪ list_to_set (preds_of_seq (components wto)) : gset Node).
  assert (dom (st_pre res.1) ⊆ X ∧ dom (st_post res.1) ⊆ Y) as [HX HY].
  { apply (run_preserves wto (λ s, dom (st_pre s) ⊆ X ∧ dom (st_post s) ⊆ Y)
             (λ m, m ∈ X ∧ m ∈ Y) (λ m, m ∈ Y)) with fuel init st; [| | | | |exact E|].
    - intros m v s [Hm _] [H1 H2]. split; [|done]. simpl. rewrite dom_set.
      apply union_least; [by apply singleton_subseteq_l|done].
    - intros m v s [_ Hm] [H1 H2]. split; [done|]. simpl. rewrite dom_set.
      apply union_least; [by apply singleton_subseteq_l|done].
    - intros m s [Hm _] [H1 H2]. destruct (keys_pre m s) as [-> ->].
      split; [|done]. apply union_least; [by apply singleton_subseteq_l|done].
    - intros m s Hm [H1 H2]. destruct (keys_post m s) as [-> ->].
      split; [done|]. apply union_least; [|done]. apply singleton_subseteq_l.
      by destruct Hm as [[_ Hm]|Hm].
    - intros m Hm. split; [split|].
      + by apply elem_of_union_r, elem_of_list_to_set.
      + by apply elem_of_union_l, elem_of_union_r, elem_of_list_to_set.
      + intros p Hp. apply elem_of_union_r, elem_of_list_to_set.
        by apply (nodes_have_preds _ m).
    - split; simpl; [rewrite dom_set|].
      + apply union_least; [|by do 2 apply union_subseteq_l'].
        apply singleton_subseteq_l. by apply elem_of_union_l, elem_of_union_r,
          elem_of_singleton.
      + by do 2 apply union_subseteq_l'. }
  rewrite run_unfold in E.
  destruct (iterate wto fuel (set_pre entry init st)) as [s1|] eqn:Ei; [|done].
  injection E as <-. simpl in HX, HY |- *.
  assert (grows st (process_seq (components wto) [] s1).2) as [G1 G2].
  { eapply grows_trans; [apply (grows_set_pre entry init)|].
    eapply grows_trans; [by eapply grows_visit_seq|apply grows_process_seq]. }
  assert (grows s1 (process_seq (components wto) [] s1).2) as [G3 G4]
    by apply grows_process_seq.
  split; split.
  - intros Hn. apply HX in Hn. unfold X in Hn.
    rewrite !elem_of_union, elem_of_singleton, elem_of_list_to_set in Hn. tauto.
  - intros [Hn|[->|Hn]]; [by apply G1| |].
    + apply G3, (grows_visit_seq _ _ _ _ Ei). simpl. rewrite dom_set.
      by apply elem_of_union_l, elem_of_singleton.
    + apply G3. by destruct (iterate_stored _ _ _ n Ei Hn) as (S1 & _).
  - intros Hn. apply HY in Hn. unfold Y in Hn.
    rewrite !elem_of_union, !elem_of_list_to_set in Hn. tauto.
  - intros [Hn|[Hn|Hn]]; [by apply G2| |].
    + apply G4. by destruct (iterate_stored _ _ _ n Ei Hn) as (_ & S2 & _).
    + apply preds_have_nodes in Hn as (m & Hm & Hp).
      apply G4. destruct (iterate_stored _ _ _ m Ei Hm) as (_ & _ & S3).
      by apply S3.
Qed.

(** X4: when [run] returns, reading again the pre or the post of a node
    of the WTO, or the post of one of its predecessors, returns the stored
    invariant and leaves the tables as they are, and so does a second
    traversal of the post-processor, which repeats the calls made to the
    sinks. *)
Theorem reads_after_run_are_hits fuel init st
    (res : state V Node * list (event V Node)) :
  run wto fuel init st = Some res →
  (∀ n, n ∈ nodes_of_seq (components wto) →
     pre n res.1 = (pre_of res.1 n, res.1)
     ∧ post n res.1 = (post_of res.1 n, res.1)
     ∧ ∀ p, p ∈ predecessors n → post p res.1 = (post_of res.1 p, res.1))
  ∧ process_seq (components wto) [] res.1 = (res.2, res.1).
Proof.
  intros E. rewrite run_unfold in E.
  destruct (iterate wto fuel (set_pre entry init st)) as [s1|] eqn:Ei; [|done].
  injection E as <-. simpl.
  assert (∀ n, n ∈ nodes_of_seq (components wto) →
            stored n (process_seq (components wto) [] s1).2) as Hs.
  { intros n Hn. apply (stored_grows n s1); [apply grows_process_seq|].
    by apply (iterate_stored _ _ _ n Ei). }
  split.
  - intros n Hn. destruct (Hs n Hn) as (H1 & H2 & H3).
    split; [by apply pre_stored|split; [by apply post_stored|]].
    intros p Hp. by apply post_stored, H3.
  - rewrite process_seq_stored; [| |done].
    + destruct (process_seq_spec (components wto) [] s1) as [-> Es].
      simpl. by rewrite (sink_calls_same _ _ _ Es).
    + apply Forall_forall. intros c _. apply process_stored.
Qed.

End Keys.

(** ** What a run leaves alone, and what a loop leaves behind *)

Section Frames.
Context {V Node : Type} {EqN : EqDecision Node} {CntN : Countable Node}.
Context {D : AbstractValue V} {G : GraphTrait Node} {A : Analyzer V Node}.
Variable wto : Wto Node.

Implicit Types (st s r : state V Node) (n m h p : Node) (v : V)
  (c : component Node) (cs body : list (component Node)).

Lemma lookup_set_ne (tbl : gmap Node V) m n v :
  m ≠ n → set tbl m v !! n = tbl !! n.
Proof. intros Hne. by rewrite set_insert, lookup_insert_ne. Qed.

Lemma lookup_get_ne (tbl : gmap Node V) m n :
  m ≠ n → (get tbl m).2 !! n = tbl !! n.
Proof.
  intros Hne. unfold get. destruct (tbl !! m); simpl; [done|].
  by rewrite lookup_insert_ne.
Qed.

Lemma lookup_pre_ne m n s :
  m ≠ n → st_pre (pre m s).2 !! n = st_pre s !! n
          ∧ st_post (pre m s).2 = st_post s.
Proof.
  intros Hne. unfold pre. pose proof (lookup_get_ne (st_pre s) m n Hne) as E.
  by destruct (get (st_pre s) m).
Qed.

Lemma lookup_post_ne m n s :
  m ≠ n → st_post (post m s).2 !! n = st_post s !! n
          ∧ st_pre (post m s).2 = st_pre s.
Proof.
  intros Hne. unfold post. pose proof (lookup_get_ne (st_post s) m n Hne) as E.
  by destruct (get (st_post s) m).
Qed.

Lemma candidate_agree h s1 s2 :
  (∀ p, post_of s1 p = post_of s2 p) → candidate wto h s1 = candidate wto h s2.
Proof.
  intros E. unfold candidate.
  by rewrite (join_edges_agree (is_incoming wto h) h s1 s2 bottom),
             (join_edges_agree (is_back_edge wto h) h s1 s2 bottom).
Qed.

(** X5: [run] changes no invariant of a node outside the WTO, except
    that the pre invariant of the entry node becomes [init]; the entry of
    such a node in the pre table is not touched unless it is the entry
    node, and its entry in the post table is not touched unless it is a
    predecessor of a node of the WTO. *)
Theorem run_leaves_other_nodes fuel init st
    (res : state V Node * list (event V Node)) n :
  run wto fuel init st = Some res →
  n ∉ nodes_of_seq (components wto) →
  post_of res.1 n = post_of st n
  ∧ pre_of res.1 n = (if decide (n = entry) then init else pre_of st n)
  ∧ (n ≠ entry → st_pre res.1 !! n = st_pre st !! n)
  ∧ (n ∉ preds_of_seq (components wto) → st_post res.1 !! n = st_post st !! n).
Proof.
  intros E Hn.
  assert (∀ m, m ∈ nodes_of_seq (components wto) → m ≠ n) as Hne.
  { intros m Hm ->. by apply Hn. }
  split; [|split; [|split]].
  - rewrite run_unfold in E.
    destruct (iterate wto fuel (set_pre entry init st)) as [s1|] eqn:Ei; [|done].
    injection E as <-. simpl.
    destruct (process_seq_spec (components wto) [] s1) as [_ Es].
    destruct (Es n) as [_ ->].
    destruct (visit_seq_frame _ _ _ _ _ _ Ei Hn) as [_ ->].
    apply post_of_set_pre.
  - rewrite run_unfold in E.
    destruct (iterate wto fuel (set_pre entry init st)) as [s1|] eqn:Ei; [|done].
    injection E as <-. simpl.
    destruct (process_seq_spec (components wto) [] s1) as [_ Es].
    destruct (Es n) as [-> _].
    destruct (visit_seq_frame _ _ _ _ _ _ Ei Hn) as [-> _].
    rewrite pre_of_set_pre. destruct (decide (entry = n)) as [<-|Hd].
    + by rewrite decide_True.
    + by rewrite decide_False.
  - intros He.
    apply (run_preserves wto (λ s, st_pre s !! n = st_pre st !! n)
             (λ m, m ≠ n) (λ _, True)) with fuel init st; [| | | | |exact E|].
    + intros m v s Hm <-. simpl. by apply lookup_set_ne.
    + by intros m v s Hm <-.
    + intros m s Hm <-. by destruct (lookup_pre_ne m n s Hm) as [-> _].
    + intros m s _ <-. unfold post. by destruct (get (st_post s) m).
    + intros m Hm. split; [by apply Hne|done].
    + simpl. apply lookup_set_ne. intros Heq. by apply He.
  - intros Hp.
    apply (run_preserves wto (λ s, st_post s !! n = st_post st !! n)
             (λ m, m ≠ n) (λ m, m ≠ n)) with fuel init st; [| | | | |exact E|].
    + by intros m v s Hm <-.
    + intros m v s Hm <-. simpl. by apply lookup_set_ne.
    + intros m s Hm <-. unfold pre. by destruct (get (st_pre s) m).
    + intros m s Hm <-. apply lookup_post_ne. by destruct Hm.
    + intros m Hm. split; [by apply Hne|]. intros p Hpm ->. apply Hp.
      by apply (nodes_have_preds _ m).
    + done.
Qed.

(** X7: when the visit of a cycle returns, the pre invariant stored for
    the head is [refine] applied to the [pre] of the last pass and to the
    candidate computed from the post invariants of the returned tables,
    and the decreasing-fixpoint test accepts it; the returned tables are
    those left by the last visit of the body but for the pre invariant of
    the head, and the post invariant of a head that is not in its own
    body is the transfer of the [pre] of the last pass. *)
Theorem cycle_exit_equation fuel h body st r :
  visit wto fuel (Cycle h body) st = Some r →
  ∃ i v s' s2,
    visit_seq (visit wto fuel) body
      (set_post h (analyze_node h v) (set_pre h v s')) = Some s2
    ∧ pre_of r h = refine h i v (candidate wto h r)
    ∧ is_decreasing_iterations_fixpoint v (pre_of r h) = true
    ∧ (∀ n, post_of r n = post_of s2 n ∧ (n ≠ h → pre_of r n = pre_of s2 n))
    ∧ (h ∉ nodes_of_seq body → post_of r h = analyze_node h v).
Proof.
  rewrite visit_cycle. intros E.
  apply cycle_loop_last in E as (i & v & s' & s2 & Eb & -> & Hd).
  assert (∀ n, post_of (set_pre h (refine h i v (candidate wto h s2))
                          (after_joins wto h s2)) n = post_of s2 n) as Hpost.
  { intros n. rewrite post_of_set_pre. by destruct (after_joins_same wto h s2 n). }
  exists i, v, s', s2. rewrite (candidate_agree h _ s2 Hpost).
  rewrite pre_of_set_pre, decide_True by done.
  split; [done|split; [done|split; [done|split]]].
  - intros n. split; [apply Hpost|]. intros Hne.
    rewrite pre_of_set_pre, decide_False by done.
    by destruct (after_joins_same wto h s2 n).
  - intros Hh. rewrite Hpost.
    destruct (visit_seq_frame _ _ _ _ _ _ Eb Hh) as [_ ->].
    by rewrite post_of_set_post, decide_True.
Qed.

End Frames.

(** ** A WTO without cycles *)

Section Acyclic.
Context {V Node : Type} {EqN : EqDecision Node} {CntN : Countable Node}.
Context {D : AbstractValue V} {G : GraphTrait Node} {A : Analyzer V Node}.
Variable wto : Wto Node.

Implicit Types (st s r : state V Node) (n m h p : Node) (v : V)
  (c : component Node) (cs body : list (component Node)) (ns : list Node).

Lemma acyclic_vertices cs :
  heads_of_seq cs = [] → cs = map Vertex (nodes_of_seq cs).
Proof.
  induction cs as [|[n|h body] cs IH]; intros E; [done| |done].
  unfold heads_of_seq, nodes_of_seq in *. simpl in *. f_equal. by apply IH.
Qed.

Lemma visit_vertices fuel ns s :
  visit_seq (visit wto fuel) (map Vertex ns) s
    = Some (foldl (λ s n, visit_vertex n s) s ns).
Proof.
  revert s. induction ns as [|n ns IH]; intros s; [done|].
  cbn [map foldl]. rewrite visit_seq_cons. cbn [visit]. apply IH.
Qed.

Lemma vertex_pre_agree n s r x :
  (∀ p, p ∈ predecessors n → post_of s p = post_of r p) →
  join_edges (λ _, true) n s x
    = foldl (λ acc p, join_with acc (analyze_edge p n (post_of r p)))
            x (predecessors n).
Proof.
  intros E. rewrite (join_edges_agree (λ _, true) n s r x).
  - unfold join_edges. by rewrite filter_all.
  - intros p Hp. rewrite filter_all in Hp. by apply E.
Qed.

Lemma solves_same init s r n : same_content s r → solves init r n → solves init s n.
Proof.
  intros E [H1 H2]. unfold solves. destruct (E n) as [-> ->]. split; [|done].
  rewrite H1. clear H1 H2. generalize (if decide (n = entry) then init else bottom).
  induction (predecessors n) as [|p ps IH]; intros x; simpl; [done|].
  destruct (E p) as [_ ->]. apply IH.
Qed.

(** Visiting vertices that come after their predecessors solves the
    equations at each of them and changes nothing at the other nodes. *)
Lemma vertices_solve ns :
  ∀ s, NoDup ns → scheduled ns →
    (∀ n, n ∉ ns →
       pre_of (foldl (λ s n, visit_vertex n s) s ns) n = pre_of s n
       ∧ post_of (foldl (λ s n, visit_vertex n s) s ns) n = post_of s n)
    ∧ (∀ n, n ∈ ns →
         solves (pre_of s entry) (foldl (λ s n, visit_vertex n s) s ns) n).
Proof.
  induction ns as [|n rest IH]; intros s Hnd Hsch.
  { split; [done|]. intros n Hn. by apply elem_of_nil in Hn. }
  apply NoDup_cons in Hnd as [Hn Hnd]. destruct Hsch as [Hp Hsch].
  destruct (IH (visit_vertex n s) Hnd Hsch) as [Hframe Hsolve]. cbn [foldl].
  split.
  - intros m Hm. apply not_elem_of_cons in Hm as [Hmn Hm].
    destruct (Hframe m Hm) as [-> ->].
    by rewrite visit_vertex_pre, visit_vertex_post, !decide_False.
  - intros m Hm. apply elem_of_cons in Hm as [->|Hm].
    + destruct (Hframe n Hn) as [E1 E2]. unfold solves. rewrite E2, E1.
      rewrite visit_vertex_pre, visit_vertex_post.
      destruct (decide (n = n)) as [_|Hnn]; [|done].
      split; [|done]. unfold vertex_pre.
      rewrite (vertex_pre_agree n s (foldl (λ s n, visit_vertex n s)
                                       (visit_vertex n s) rest)).
      * by destruct (decide (n = entry)) as [->|].
      * intros p Hpn. specialize (Hp p Hpn).
        apply not_elem_of_cons in Hp as [Hpn' Hpr].
        destruct (Hframe p Hpr) as [_ ->].
        by rewrite visit_vertex_post, decide_False.
    + specialize (Hsolve m Hm). unfold solves in *.
      destruct (decide (m = entry)) as [->|]; [|done].
      rewrite visit_vertex_pre, decide_False in Hsolve; [done|].
      intros ->. by apply Hn.
Qed.

(** On a WTO without cycles [run] returns whatever the bound, and its
    tables are those left by the vertex visits. *)
Lemma acyclic_run fuel init st :
  heads_of_seq (components wto) = [] →
  ∃ res, run wto fuel init st = Some res
    ∧ same_content res.1
        (foldl (λ s n, visit_vertex n s) (set_pre entry init st)
               (nodes_of_seq (components wto)))
    ∧ res.2 = sink_calls res.1 (nodes_of_seq (components wto)).
Proof.
  intros Hac. rewrite run_unfold. unfold iterate.
  pose proof (visit_vertices fuel (nodes_of_seq (components wto))
                (set_pre entry init st)) as Ev.
  rewrite <- (acyclic_vertices _ Hac) in Ev. rewrite Ev.
  eexists. split; [done|]. simpl.
  destruct (process_seq_spec (components wto) []
              (foldl (λ s n, visit_vertex n s) (set_pre entry init st)
                     (nodes_of_seq (components wto)))) as [-> Es].
  split; [done|]. simpl. by rewrite (sink_calls_same _ _ _ Es).
Qed.

(** Visiting the vertices again from tables that solve the equations
    gives back the same invariants. *)
Lemma vertices_stable init r ns :
  (∀ n, n ∈ ns → solves init r n) →
  ∀ s, NoDup ns →
    (∀ n, post_of s n = post_of r n) →
    (∀ n, (n = entry → entry ∉ ns) → pre_of s n = pre_of r n) →
    (entry ∈ ns → pre_of s entry = init) →
    same_content (foldl (λ s n, visit_vertex n s) s ns) r.
Proof.
  induction ns as [|n rest IH]; intros Hsol s Hnd Hpost Hpre Hent.
  { intros n. split; [|done]. apply Hpre. intros _. apply not_elem_of_nil. }
  apply NoDup_cons in Hnd as [Hn Hnd]. cbn [foldl].
  assert (vertex_pre n s = pre_of r n) as Ev.
  { unfold vertex_pre. rewrite (vertex_pre_agree n s r) by (intros; apply Hpost).
    destruct (Hsol n) as [-> _]; [by left|].
    destruct (decide (n = entry)) as [->|]; [|done].
    rewrite Hent; [done|by left]. }
  apply IH; [|done| | |].
  - intros m Hm. apply Hsol. by right.
  - intros m. rewrite visit_vertex_post, Ev.
    destruct (decide (n = m)) as [<-|]; [|done].
    destruct (Hsol n) as [_ ->]; [by left|done].
  - intros m Hm. rewrite visit_vertex_pre.
    destruct (decide (n = m)) as [<-|Hne]; [done|].
    apply Hpre. intros ->. specialize (Hm eq_refl).
    apply not_elem_of_cons. split; [by intros Heq|done].
  - intros He. rewrite visit_vertex_pre, decide_False.
    + apply Hent. by right.
    + intros ->. by apply Hn.
Qed.

(** X6: on a WTO without cycles whose nodes are pairwise distinct and
    come after their predecessors, [run] returns whatever the bound on
    the passes, and the final invariants solve the equations of the
    analysis at every node of the WTO: the pre invariant is [init] at the
    entry and bottom elsewhere, joined with [analyze_edge] of the final
    post invariant of every predecessor, and the post invariant is
    [analyze_node] of the pre invariant. *)
Theorem acyclic_run_solves fuel init st :
  heads_of_seq (components wto) = [] →
  NoDup (nodes_of_seq (components wto)) →
  scheduled (nodes_of_seq (components wto)) →
  ∃ res, run wto fuel init st = Some res
    ∧ ∀ n, n ∈ nodes_of_seq (components wto) → solves init res.1 n.
Proof.
  intros Hac Hnd Hsch.
  destruct (acyclic_run fuel init st Hac) as (res & E & Es & _).
  exists res. split; [done|]. intros n Hn. apply (solves_same _ _ _ _ Es).
  destruct (vertices_solve _ (set_pre entry init st) Hnd Hsch) as [_ Hs].
  specialize (Hs n Hn). by rewrite pre_of_set_pre, decide_True in Hs.
Qed.

(** X12: on such a WTO, running again with the same [init] from the
    tables a run returned gives the same invariants and the same calls to
    the sinks. *)
Theorem acyclic_rerun_same fuel fuel' init st
    (res : state V Node * list (event V Node)) :
  heads_of_seq (components wto) = [] →
  NoDup (nodes_of_seq (components wto)) →
  scheduled (nodes_of_seq (components wto)) →
  run wto fuel init st = Some res →
  ∃ res', run wto fuel' init res.1 = Some res'
    ∧ same_content res'.1 res.1 ∧ res'.2 = res.2.
Proof.
  intros Hac Hnd Hsch E.
  destruct (acyclic_run fuel init st Hac) as (res0 & E0 & Es & Et).
  rewrite E in E0. injection E0 as <-.
  destruct (vertices_solve _ (set_pre entry init st) Hnd Hsch) as [Hf Hs].
  destruct (acyclic_run fuel' init res.1 Hac) as (res' & E' & Es' & Et').
  exists res'. split; [done|].
  assert (same_content res'.1 res.1) as Hsame.
  { etrans; [exact Es'|]. apply (vertices_stable init).
    - intros n Hn. apply (solves_same _ _ _ _ Es). specialize (Hs n Hn).
      by rewrite pre_of_set_pre, decide_True in Hs.
    - done.
    - intros n. apply post_of_set_pre.
    - intros n Hn. rewrite pre_of_set_pre.
      destruct (decide (entry = n)) as [<-|]; [|done].
      specialize (Hn eq_refl). destruct (Es entry) as [-> _].
      destruct (Hf entry Hn) as [-> _]. by rewrite pre_of_set_pre, decide_True.
    - intros _. by rewrite pre_of_set_pre, decide_True. }
  split; [done|]. rewrite Et', Et. by apply sink_calls_same.
Qed.

End Acyclic.

(** ** Where [init] is read *)

Section InitUnread.
Context {V Node : Type} {EqN : EqDecision Node} {CntN : Countable Node}.
Context {D : AbstractValue V} {G : GraphTrait Node} {A : Analyzer V Node}.
Variable wto : Wto Node.

Implicit Types (st s r t : state V Node) (n m h p : Node) (v : V)
  (c : component Node) (cs body : list (component Node)).

Lemma option_Forall2_weaken {X : Type} (P Q : X → X → Prop) (o1 o2 : option X) :
  (∀ a b, P a b → Q a b) → option_Forall2 P o1 o2 → option_Forall2 Q o1 o2.
Proof. intros HPQ [a b Hab|]; constructor. by apply HPQ. Qed.

Lemma entry_pre_of_same s1 s2 : same_content s1 s2 → same_but_entry_pre s1 s2.
Proof. intros E n. by destruct (E n) as [-> ->]. Qed.

Lemma entry_pre_same s1 s1' s2 s2' :
  same_content s1' s1 → same_content s2' s2 →
  same_but_entry_pre s1 s2 → same_but_entry_pre s1' s2'.
Proof.
  intros E1 E2 E n. destruct (E1 n) as [-> ->], (E2 n) as [-> ->]. apply E.
Qed.

Lemma entry_pre_set_pre n v s1 s2 :
  same_but_entry_pre s1 s2 → same_but_entry_pre (set_pre n v s1) (set_pre n v s2).
Proof.
  intros E m. rewrite !post_of_set_pre, !pre_of_set_pre. destruct (E m) as [-> Hm].
  split; [done|]. by destruct (decide (n = m)).
Qed.

Lemma entry_pre_set_post n v s1 s2 :
  same_but_entry_pre s1 s2 → same_but_entry_pre (set_post n v s1) (set_post n v s2).
Proof.
  intros E m. rewrite !post_of_set_post, !pre_of_set_post. destruct (E m) as [-> Hm].
  split; [|done]. by destruct (decide (n = m)).
Qed.

(** Writing the pre invariant of the entry node removes the
    difference. *)
Lemma entry_pre_overwritten v s1 s2 :
  same_but_entry_pre s1 s2 → same_content (set_pre entry v s1) (set_pre entry v s2).
Proof.
  intros E m. rewrite !post_of_set_pre, !pre_of_set_pre. destruct (E m) as [-> Hm].
  split; [|done]. destruct (decide (entry = m)) as [|Hne]; [done|].
  apply Hm. by intros ->.
Qed.

Lemma entry_pre_after_joins h s1 s2 :
  same_but_entry_pre s1 s2 →
  same_but_entry_pre (after_joins wto h s1) (after_joins wto h s2).
Proof. apply entry_pre_same; apply after_joins_same. Qed.

Lemma entry_pre_visit_vertex n s1 s2 :
  n ≠ entry → same_but_entry_pre s1 s2 →
  same_but_entry_pre (visit_vertex n s1) (visit_vertex n s2).
Proof.
  intros Hne E m. rewrite !visit_vertex_pre, !visit_vertex_post.
  assert (vertex_pre n s1 = vertex_pre n s2) as ->.
  { unfold vertex_pre. rewrite !decide_False by done.
    apply join_edges_agree. intros p _. apply E. }
  destruct (E m) as [-> Hm]. split; [done|]. by destruct (decide (n = m)).
Qed.

Section LoopRel.
Variables Q1 Q2 Q3 : state V Node → state V Node → Prop.
Variable vb : state V Node → option (state V Node).
Variable h : Node.
Hypothesis Hvb : ∀ v s1 s2, Q1 s1 s2 →
  option_Forall2 Q2 (vb (set_post h (analyze_node h v) (set_pre h v s1)))
                    (vb (set_post h (analyze_node h v) (set_pre h v s2))).
Hypothesis Hcand : ∀ s1 s2, Q2 s1 s2 → candidate wto h s1 = candidate wto h s2.
Hypothesis Hnext : ∀ s1 s2, Q2 s1 s2 →
  Q1 (after_joins wto h s1) (after_joins wto h s2).
Hypothesis Hout : ∀ s1 s2 np, Q2 s1 s2 →
  Q3 (set_pre h np (after_joins wto h s1)) (set_pre h np (after_joins wto h s2)).

(** Two loops that start from related tables with the same [pre] make
    the same passes. *)
Lemma cycle_loop_rel k :
  ∀ kind i v s1 s2, Q1 s1 s2 →
    option_Forall2 Q3 (cycle_loop wto vb h k kind i v s1)
                      (cycle_loop wto vb h k kind i v s2).
Proof using Hvb Hcand Hnext Hout.
  induction k as [|k IH]; intros kind i v s1 s2 HQ; [constructor|].
  rewrite !cycle_loop_pass.
  destruct (Hvb v s1 s2 HQ) as [r1 r2 Hr|]; [|constructor].
  pose proof (Hcand r1 r2 Hr) as Ec. unfold candidate in Ec. rewrite Ec.
  destruct (cycle_update _ _ _ _ _) as [np|kind' i' v'].
  - constructor. by apply Hout.
  - apply IH. by apply Hnext.
Qed.
End LoopRel.

Lemma visit_seq_unread fuel cs :
  Forall (λ c, ∀ s1 s2, same_but_entry_pre s1 s2 →
            option_Forall2
              (λ r1 r2, same_but_entry_pre r1 r2
                        ∧ (entry ∈ heads_of c → same_content r1 r2))
              (visit wto fuel c s1) (visit wto fuel c s2)) cs →
  ∀ s1 s2, same_but_entry_pre s1 s2 →
    option_Forall2
      (λ r1 r2, same_but_entry_pre r1 r2
                ∧ (entry ∈ heads_of_seq cs → same_content r1 r2))
      (visit_seq (visit wto fuel) cs s1) (visit_seq (visit wto fuel) cs s2).
Proof.
  induction 1 as [|c cs Hc _ IH]; intros s1 s2 E.
  { constructor. split; [done|]. intros Hin. by apply elem_of_nil in Hin. }
  rewrite !visit_seq_cons.
  destruct (Hc s1 s2 E) as [r1 r2 [E1 Hs]|]; [|constructor].
  destruct (decide (entry ∈ heads_of c)) as [Hin|Hnin].
  - apply (option_Forall2_weaken same_content).
    { intros a b Hab. split; [by apply entry_pre_of_same|done]. }
    apply visit_seq_same; [|by apply Hs].
    apply Forall_forall. intros c' _ t1 t2. apply visit_same.
  - eapply option_Forall2_weaken; [|exact (IH r1 r2 E1)].
    intros a b [Ha Hb]. split; [done|]. intros Hin. apply Hb.
    unfold heads_of_seq in Hin. simpl in Hin.
    by apply elem_of_app in Hin as [Hin|Hin].
Qed.

(** A visit that does not treat the entry node as a vertex never reads
    its pre invariant, and overwrites it if the entry node is a head. *)
Lemma visit_unread c :
  entry ∉ vertices_of c →
  ∀ fuel s1 s2, same_but_entry_pre s1 s2 →
    option_Forall2
      (λ r1 r2, same_but_entry_pre r1 r2
                ∧ (entry ∈ heads_of c → same_content r1 r2))
      (visit wto fuel c s1) (visit wto fuel c s2).
Proof.
  induction c as [m|h body IH] using component_ind'; intros Hv fuel s1 s2 E.
  { constructor. split.
    - apply entry_pre_visit_vertex; [|done]. intros ->. apply Hv. by left.
    - intros Hin. by apply elem_of_nil in Hin. }
  rewrite !visit_cycle.
  rewrite (join_edges_agree (is_incoming wto h) h s1 s2 bottom)
    by (intros; by apply E).
  assert (same_but_entry_pre
            (collect (is_incoming wto h) h (predecessors h) bottom s1).2
            (collect (is_incoming wto h) h (predecessors h) bottom s2).2) as E0.
  { revert E. apply entry_pre_same; apply collect_same. }
  assert (∀ t1 t2, same_but_entry_pre t1 t2 →
            option_Forall2
              (λ r1 r2, same_but_entry_pre r1 r2
                        ∧ (entry ∈ heads_of_seq body → same_content r1 r2))
              (visit_seq (visit wto fuel) body t1)
              (visit_seq (visit wto fuel) body t2)) as Hbody.
  { apply visit_seq_unread. simpl in Hv. clear E E0.
    induction IH as [|c body Hc _ IHb]; constructor; simpl in Hv;
      apply not_elem_of_app in Hv as [Hv1 Hv2].
    - intros t1 t2. by apply Hc.
    - by apply IHb. }
  destruct (decide (h = entry)) as [->|Hne].
  - apply (option_Forall2_weaken same_content).
    { intros a b Hab. split; [by apply entry_pre_of_same|done]. }
    apply (cycle_loop_rel same_but_entry_pre same_content same_content);
      [| | | |done].
    + intros v t1 t2 Et. apply visit_seq_same.
      * apply Forall_forall. intros c' _ u1 u2. apply visit_same.
      * by apply set_post_same, entry_pre_overwritten.
    + intros t1 t2 Et. apply candidate_agree. intros p. by destruct (Et p).
    + intros t1 t2 Et. apply entry_pre_of_same.
      etrans; [apply after_joins_same|]. etrans; [exact Et|].
      symmetry. apply after_joins_same.
    + intros t1 t2 np Et. apply set_pre_same.
      etrans; [apply after_joins_same|]. etrans; [exact Et|].
      symmetry. apply after_joins_same.
  - apply (option_Forall2_weaken
             (λ r1 r2, same_but_entry_pre r1 r2
                       ∧ (entry ∈ heads_of_seq body → same_content r1 r2))).
    { intros a b [Ha Hb]. split; [done|]. intros Hin. apply Hb.
      simpl in Hin. apply elem_of_cons in Hin as [Hin|Hin]; [|done].
      by destruct Hne. }
    apply (cycle_loop_rel same_but_entry_pre
             (λ r1 r2, same_but_entry_pre r1 r2
                       ∧ (entry ∈ heads_of_seq body → same_content r1 r2)));
      [| | | |done].
    + intros v t1 t2 Et. by apply Hbody, entry_pre_set_post, entry_pre_set_pre.
    + intros t1 t2 [Et _]. apply candidate_agree. intros p. by destruct (Et p).
    + intros t1 t2 [Et _]. by apply entry_pre_after_joins.
    + intros t1 t2 np [Et Hs]. split.
      * by apply entry_pre_set_pre, entry_pre_after_joins.
      * intros Hin. apply set_pre_same.
        etrans; [apply after_joins_same|]. etrans; [by apply Hs|].
        symmetry. apply after_joins_same.
Qed.

Lemma nodes_split c n : n ∈ nodes_of c → n ∈ vertices_of c ∨ n ∈ heads_of c.
Proof.
  induction c as [m|h body IH] using component_ind'; intros Hn; [by left|].
  simpl in Hn |- *. apply elem_of_cons in Hn as [->|Hn]; [right; by left|].
  assert (n ∈ concat (map vertices_of body) ∨ n ∈ concat (map heads_of body))
    as [Hb|Hb]; [|by left|right; by right].
  clear h. induction IH as [|c body Hc _ IHb]; simpl in Hn |- *.
  { by apply elem_of_nil in Hn. }
  rewrite !elem_of_app. apply elem_of_app in Hn as [Hn|Hn].
  - destruct (Hc Hn); [left; by left|right; by left].
  - destruct (IHb Hn); [left; by right|right; by right].
Qed.

Lemma nodes_split_seq cs n :
  n ∈ nodes_of_seq cs → n ∈ vertices_of_seq cs ∨ n ∈ heads_of_seq cs.
Proof.
  unfold nodes_of_seq, vertices_of_seq, heads_of_seq.
  induction cs as [|c cs IH]; simpl; intros Hn; [by apply elem_of_nil in Hn|].
  rewrite !elem_of_app. apply elem_of_app in Hn as [Hn|Hn].
  - destruct (nodes_split c n Hn); [left; by left|right; by left].
  - destruct (IH Hn); [left; by right|right; by right].
Qed.

Lemma sink_calls_agree s1 s2 ns :
  (∀ n, n ∈ ns → pre_of s1 n = pre_of s2 n ∧ post_of s1 n = post_of s2 n) →
  sink_calls s1 ns = sink_calls s2 ns.
Proof.
  unfold sink_calls. induction ns as [|n ns IH]; intros E; simpl; [done|].
  destruct (E n) as [-> ->]; [by left|]. rewrite IH; [done|].
  intros m Hm. apply E. by right.
Qed.

(** X8: when no vertex of the WTO is the entry node, [init] is never
    read: two runs that differ in [init] make the same passes, make the
    same calls to the sinks and end with the same invariants, except that
    the pre invariant of an entry node outside the WTO is the [init] of
    each run; if the entry node is the head of a cycle, the loop
    overwrites [init] and the final invariants are the same
    everywhere. *)
Theorem init_unread_without_entry_vertex fuel init1 init2 st :
  entry ∉ vertices_of_seq (components wto) →
  option_Forall2
    (λ res1 res2, res1.2 = res2.2
       ∧ same_but_entry_pre res1.1 res2.1
       ∧ (entry ∈ heads_of_seq (components wto) → same_content res1.1 res2.1))
    (run wto fuel init1 st) (run wto fuel init2 st).
Proof.
  intros Hv. rewrite !run_unfold. unfold iterate.
  assert (same_but_entry_pre (set_pre entry init1 st) (set_pre entry init2 st))
    as E.
  { intros n. rewrite !post_of_set_pre, !pre_of_set_pre. split; [done|].
    intros Hne. rewrite !decide_False; [done|by intros Heq; apply Hne..]. }
  destruct (visit_seq_unread fuel (components wto)) with
    (set_pre entry init1 st) (set_pre entry init2 st) as [r1 r2 [Er Hs]|];
    [|done| |constructor].
  { apply Forall_forall. intros c Hc s1 s2. apply visit_unread.
    intros Hin. apply Hv. unfold vertices_of_seq.
    apply list_elem_of_In, in_concat. exists (vertices_of c).
    split; [apply in_map|]; by apply list_elem_of_In. }
  constructor. simpl.
  destruct (process_seq_spec (components wto) [] r1) as [-> P1].
  destruct (process_seq_spec (components wto) [] r2) as [-> P2].
  split; [|split].
  - simpl. apply sink_calls_agree. intros n Hn.
    destruct (decide (n = entry)) as [->|Hne].
    + apply nodes_split_seq in Hn as [Hn|Hn]; [by destruct Hv|].
      by destruct (Hs Hn entry).
    + destruct (Er n) as [-> Hp]. by rewrite Hp.
  - revert Er. by apply entry_pre_same.
  - intros Hin. etrans; [exact P1|]. etrans; [by apply Hs|]. by symmetry.
Qed.

End InitUnread.

(** ** Overridden hooks, the pass counter, and an unreachable program *)

(** X9: whatever the bodies of the four hooks, if every increasing pass
    that goes on moves [pre] along a relation without infinite chain, and
    every decreasing pass that goes on does so too, then [run] returns:
    some bound on the passes of each loop is enough, and every larger
    bound gives the same tables and the same calls to the sinks. *)
Theorem run_terminates_with_hooks {V Node : Type} `{Countable Node}
    {D : AbstractValue V} {G : GraphTrait Node} {A : Analyzer V Node}
    (wto : Wto Node) (ascends descends : V → V → Prop) (init : V)
    (st : state V Node) :
  well_founded ascends →
  well_founded descends →
  (∀ h i v new_pre,
     is_increasing_iterations_fixpoint v new_pre = false →
     ascends (extrapolate h i v new_pre) v) →
  (∀ h i v new_pre,
     is_decreasing_iterations_fixpoint v (refine h i v new_pre) = false →
     descends (refine h i v new_pre) v) →
  ∃ fuel res, ∀ fuel', fuel ≤ fuel' → run wto fuel' init st = Some res.
Proof.
  intros Ha Hd Hup Hdown.
  destruct (run_terminates wto ascends descends Ha Hd Hup Hdown init st)
    as (fuel & res & E).
  exists fuel, res. intros fuel' Hle. revert E. by apply run_mono.
Qed.

Lemma incr_iter k : Nat.iter k incr 1%N = ((1 + N.of_nat k) mod 2 ^ 32)%N.
Proof.
  induction k as [|k IH]; [done|]. rewrite Nat.iter_succ, IH. unfold incr.
  rewrite Nat2N.inj_succ.
  rewrite N.Div0.add_mod_idemp_l. f_equal. lia.
Qed.

(** X10: the pass counter is an [unsigned]: it stays below [2^32], is
    incremented by one below [2^32 - 1] and wraps to zero there, so that
    after [k] passes that go on without a change of phase it is
    [(1 + k) mod 2^32].  A pass that goes on continues with the
    incremented counter, or with counter 2 when it has just entered the
    decreasing phase.  With the hooks of the base class an increasing
    pass that is not at a fixpoint replaces [pre] by [join_iter] when the
    counter is 0 or 1, hence also right after a wrap, and by [widen]
    otherwise. *)
Theorem pass_counter_wraps {V Node : Type} {D : AbstractValue V}
    (node : Node → V → V) (edge : Node → Node → V → V) :
  (∀ i, (incr i < 2 ^ 32)%N)
  ∧ (∀ i, (i < 2 ^ 32 - 1)%N → incr i = (i + 1)%N)
  ∧ incr (2 ^ 32 - 1) = 0%N
  ∧ (∀ k, Nat.iter k incr 1%N = ((1 + N.of_nat k) mod 2 ^ 32)%N)
  ∧ (∀ (A : Analyzer V Node) h kind i v new_pre kind' i' v',
       cycle_update h kind i v new_pre = Continue kind' i' v' →
       i' = incr i ∨ (kind = Increasing ∧ kind' = Decreasing ∧ i' = 2%N))
  ∧ (∀ h i v new_pre,
       leq new_pre v = false →
       cycle_update (A:=base_analyzer node edge) h Increasing i v new_pre
         = Continue Increasing (incr i)
             (if (i <=? 1)%N then join_iter_with v new_pre
              else widen_with v new_pre)).
Proof.
  split; [|split; [|split; [|split; [|split]]]].
  - intros i. unfold incr. by apply N.mod_lt.
  - intros i Hi. unfold incr. apply N.mod_small. lia.
  - done.
  - apply incr_iter.
  - intros A0 h kind i v new_pre kind' i' v'. unfold cycle_update.
    destruct kind.
    + destruct (is_increasing_iterations_fixpoint v new_pre).
      * destruct (is_decreasing_iterations_fixpoint _ _); [done|].
        intros [= <- <- <-]. by right.
      * intros [= <- <- <-]. by left.
    + destruct (is_decreasing_iterations_fixpoint _ _); [done|].
      intros [= <- <- <-]. by left.
  - intros h i v new_pre Hn. unfold cycle_update. cbn [is_increasing_iterations_fixpoint
      base_analyzer extrapolate]. unfold default_is_increasing_iterations_fixpoint.
    by rewrite Hn.
Qed.

Section Unreachable.
Context {V Node : Type} {EqN : EqDecision Node} {CntN : Countable Node}.
Context {D : AbstractValue V} {G : GraphTrait Node} {A : Analyzer V Node}.
Variable wto : Wto Node.

Implicit Types (st s r : state V Node) (n m h p : Node) (v : V)
  (c : component Node) (cs body : list (component Node)).

Hypothesis join_bottom : join_with (bottom : V) bottom = bottom.
Hypothesis join_loop_bottom : join_loop_with (bottom : V) bottom = bottom.
Hypothesis node_strict : ∀ n, analyze_node n bottom = bottom.
Hypothesis edge_strict : ∀ p n, analyze_edge p n bottom = bottom.
Hypothesis increasing_stable : is_increasing_iterations_fixpoint bottom bottom = true.
Hypothesis refine_bottom : ∀ h i, refine h i bottom bottom = bottom.
Hypothesis decreasing_stable : is_decreasing_iterations_fixpoint bottom bottom = true.

Lemma all_bottom_same s r : same_content r s → all_bottom s → all_bottom r.
Proof. intros E Hs n. destruct (E n) as [-> ->]. apply Hs. Qed.

Lemma join_edges_bottom keep n s :
  all_bottom s → join_edges keep n s bottom = bottom.
Proof using join_bottom edge_strict.
  intros Hs. unfold join_edges.
  induction (List.filter keep (predecessors n)) as [|p ps IH]; [done|].
  simpl. destruct (Hs p) as [_ ->]. by rewrite edge_strict, join_bottom.
Qed.

Lemma all_bottom_set_pre n s : all_bottom s → all_bottom (set_pre n bottom s).
Proof.
  intros Hs m. rewrite pre_of_set_pre, post_of_set_pre. destruct (Hs m).
  by destruct (decide (n = m)).
Qed.

Lemma all_bottom_set_post n s : all_bottom s → all_bottom (set_post n bottom s).
Proof.
  intros Hs m. rewrite pre_of_set_post, post_of_set_post. destruct (Hs m).
  by destruct (decide (n = m)).
Qed.

Lemma visit_vertex_bottom n s : all_bottom s → all_bottom (visit_vertex n s).
Proof using join_bottom node_strict edge_strict.
  intros Hs m. rewrite visit_vertex_pre, visit_vertex_post.
  assert (vertex_pre n s = bottom) as ->.
  { unfold vertex_pre. destruct (Hs n) as [-> _].
    destruct (decide (n = entry)); by apply join_edges_bottom. }
  rewrite node_strict. destruct (Hs m). by destruct (decide (n = m)).
Qed.

(** From bottom on bottom tables a loop stops after one pass. *)
Lemma cycle_loop_bottom (vb : state V Node → option (state V Node)) h k kind i s :
  (∀ t, all_bottom t → ∃ t', vb t = Some t' ∧ all_bottom t') →
  all_bottom s →
  ∃ r, cycle_loop wto vb h (S k) kind i bottom s = Some r ∧ all_bottom r.
Proof using All.
  intros Hvb Hs. rewrite cycle_loop_pass, node_strict.
  destruct (Hvb (set_post h bottom (set_pre h bottom s))) as (s2 & -> & H2).
  { by apply all_bottom_set_post, all_bottom_set_pre. }
  rewrite !join_edges_bottom, join_loop_bottom by done.
  assert (cycle_update h kind i bottom bottom = Break bottom) as ->.
  { unfold cycle_update. destruct kind.
    - by rewrite increasing_stable, refine_bottom, decreasing_stable.
    - by rewrite refine_bottom, decreasing_stable. }
  eexists. split; [done|]. apply all_bottom_set_pre.
  revert H2. apply all_bottom_same, after_joins_same.
Qed.

Lemma visit_seq_bottom fuel cs :
  Forall (λ c, ∀ s, all_bottom s →
               ∃ r, visit wto fuel c s = Some r ∧ all_bottom r) cs →
  ∀ s, all_bottom s →
    ∃ r, visit_seq (visit wto fuel) cs s = Some r ∧ all_bottom r.
Proof.
  induction 1 as [|c cs Hc _ IH]; intros s Hs; [by exists s|].
  rewrite visit_seq_cons. destruct (Hc s Hs) as (s1 & -> & H1). by apply IH.
Qed.

Lemma visit_bottom c :
  ∀ fuel s, all_bottom s →
    ∃ r, visit wto (S fuel) c s = Some r ∧ all_bottom r.
Proof using All.
  induction c as [m|h body IH] using component_ind'; intros fuel s Hs.
  { eexists. split; [done|]. by apply visit_vertex_bottom. }
  rewrite visit_cycle, join_edges_bottom by done.
  apply cycle_loop_bottom.
  - apply visit_seq_bottom. eapply Forall_impl; [exact IH|].
    intros c Hc. apply Hc.
  - revert Hs. apply all_bottom_same, collect_same.
Qed.

Lemma run_bottom fuel s :
  all_bottom s →
  ∃ res, run wto (S fuel) bottom s = Some res
    ∧ all_bottom res.1
    ∧ res.2 = concat (map (λ n, [ProcessPre n bottom; ProcessPost n bottom])
                          (nodes_of_seq (components wto))).
Proof using All.
  intros Hs. rewrite run_unfold. unfold iterate.
  destruct (visit_seq_bottom (S fuel) (components wto)) with
    (s := set_pre entry bottom s) as (s1 & -> & H1).
  { apply Forall_forall. intros c _. apply visit_bottom. }
  { by apply all_bottom_set_pre. }
  eexists. split; [done|]. simpl.
  destruct (process_seq_spec (components wto) [] s1) as [-> Es].
  split; [revert H1; by apply all_bottom_same|]. simpl. unfold sink_calls.
  f_equal. apply map_ext. intros n. by destruct (H1 n) as [-> ->].
Qed.

End Unreachable.

(** X11: if the transfer functions are strict, the joins of bottom with
    bottom are bottom and the hooks accept bottom as a fixpoint and
    refine it to bottom, then on tables that hold bottom everywhere
    [run(bottom)] makes one pass of every loop, as many times as the loop
    is entered, and returns: bound 1 on the passes is enough.  Every
    invariant is bottom at the end and the sinks receive bottom for every
    node. *)
Theorem bottom_run_one_pass {V Node : Type} `{Countable Node}
    {D : AbstractValue V} {G : GraphTrait Node} {A : Analyzer V Node}
    (wto : Wto Node) (fuel : nat) (st : state V Node) :
  join_with (bottom : V) bottom = bottom →
  join_loop_with (bottom : V) bottom = bottom →
  (∀ n, analyze_node n bottom = bottom) →
  (∀ p n, analyze_edge p n bottom = bottom) →
  is_increasing_iterations_fixpoint bottom bottom = true →
  (∀ h i, refine h i bottom bottom = bottom) →
  is_decreasing_iterations_fixpoint bottom bottom = true →
  all_bottom st →
  ∃ res, run wto (S fuel) bottom st = Some res
    ∧ all_bottom res.1
    ∧ res.2 = concat (map (λ n, [ProcessPre n bottom; ProcessPost n bottom])
                          (nodes_of_seq (components wto))).
Proof. intros. by apply run_bottom. Qed.

(** ** Tables that are not new *)

Section Stale.
Context {V Node : Type} {EqN : EqDecision Node} {CntN : Countable Node}.
Context {D : AbstractValue V} {G : GraphTrait Node} {A : Analyzer V Node}.
Variable wto : Wto Node.

Implicit Types (st s r t : state V Node) (n m h p : Node) (v : V)
  (c : component Node) (cs body : list (component Node)) (seen : list Node).

Lemma closed_cycle seen h body :
  closed wto seen (Cycle h body)
  = ((∀ p, p ∈ predecessors h →
        if is_back_edge wto h p then p ∈ h :: nodes_of_seq body else p ∈ seen)
     ∧ closed_seq wto (h :: seen) body).
Proof. done. Qed.

Lemma agree_on_same seen s1 s1' s2 s2' :
  same_content s1' s1 → same_content s2' s2 →
  agree_on seen s1 s2 → agree_on seen s1' s2'.
Proof.
  intros E1 E2 [He Hs]. split.
  - destruct (E1 entry) as [-> _], (E2 entry) as [-> _]. done.
  - intros n Hn. destruct (E1 n) as [-> ->], (E2 n) as [-> ->]. by apply Hs.
Qed.

Lemma agree_on_weaken seen seen' s1 s2 :
  (∀ n, n ∈ seen' → n ∈ seen) → agree_on seen s1 s2 → agree_on seen' s1 s2.
Proof. intros Hsub [He Hs]. split; [done|]. intros n Hn. by apply Hs, Hsub. Qed.

Lemma agree_on_set_pre seen n v s1 s2 :
  agree_on seen s1 s2 → agree_on seen (set_pre n v s1) (set_pre n v s2).
Proof.
  intros [He Hs]. split.
  - rewrite !pre_of_set_pre. by destruct (decide (n = entry)).
  - intros m Hm. rewrite !pre_of_set_pre, !post_of_set_pre.
    destruct (Hs m Hm) as [-> ->]. by destruct (decide (n = m)).
Qed.

Lemma agree_on_head seen h v x s1 s2 :
  agree_on seen s1 s2 →
  agree_on (h :: seen) (set_post h x (set_pre h v s1)) (set_post h x (set_pre h v s2)).
Proof.
  intros [He Hs]. split.
  - rewrite !pre_of_set_post, !pre_of_set_pre. by destruct (decide (h = entry)).
  - intros m Hm.
    rewrite !pre_of_set_post, !pre_of_set_pre, !post_of_set_post, !post_of_set_pre.
    destruct (decide (h = m)) as [|Hne]; [done|].
    apply elem_of_cons in Hm as [->|Hm]; [done|]. by apply Hs.
Qed.

Lemma join_edges_agree_on keep n seen s1 s2 x :
  agree_on seen s1 s2 →
  (∀ p, p ∈ predecessors n → keep p = true → p ∈ seen) →
  join_edges keep n s1 x = join_edges keep n s2 x.
Proof.
  intros [_ Hs] Hk. apply join_edges_agree. intros p Hp.
  apply list_elem_of_In, filter_In in Hp as [Hp Hkp].
  apply list_elem_of_In in Hp. by destruct (Hs p (Hk p Hp Hkp)).
Qed.

Lemma visit_vertex_agree seen n s1 s2 :
  (∀ p, p ∈ predecessors n → p ∈ seen) →
  agree_on seen s1 s2 →
  agree_on (n :: seen) (visit_vertex n s1) (visit_vertex n s2).
Proof.
  intros Hp E.
  assert (vertex_pre n s1 = vertex_pre n s2) as Ev.
  { unfold vertex_pre.
    rewrite (join_edges_agree_on (λ _, true) n seen s1 s2) by (by auto).
    destruct E as [He _].
    destruct (decide (n = entry)) as [->|]; [by rewrite He|done]. }
  destruct E as [He Hs]. split.
  - rewrite !visit_vertex_pre, Ev. by destruct (decide (n = entry)).
  - intros m Hm. rewrite !visit_vertex_pre, !visit_vertex_post, Ev.
    destruct (decide (n = m)) as [|Hne]; [done|].
    apply elem_of_cons in Hm as [->|Hm]; [done|]. by apply Hs.
Qed.

Lemma visit_seq_agree fuel cs :
  Forall (λ c, ∀ seen s1 s2, closed wto seen c → agree_on seen s1 s2 →
            option_Forall2 (agree_on (nodes_of c ++ seen))
              (visit wto fuel c s1) (visit wto fuel c s2)) cs →
  ∀ seen s1 s2, closed_seq wto seen cs → agree_on seen s1 s2 →
    option_Forall2 (agree_on (nodes_of_seq cs ++ seen))
      (visit_seq (visit wto fuel) cs s1) (visit_seq (visit wto fuel) cs s2).
Proof.
  induction 1 as [|c cs Hc _ IH]; intros seen s1 s2 Hcl E; [by constructor|].
  destruct Hcl as [Hcl1 Hcl2]. rewrite !visit_seq_cons.
  destruct (Hc seen s1 s2 Hcl1 E) as [r1 r2 Er|]; [|constructor].
  eapply option_Forall2_weaken; [|exact (IH _ r1 r2 Hcl2 Er)].
  intros a b. apply agree_on_weaken. intros n. unfold nodes_of_seq. simpl.
  rewrite !elem_of_app. tauto.
Qed.

(** On a closed component, two visits that start from tables agreeing
    on the nodes seen so far make the same passes and end with tables
    agreeing on the nodes of the component as well. *)
Lemma visit_agree c :
  ∀ fuel seen s1 s2, closed wto seen c → agree_on seen s1 s2 →
    option_Forall2 (agree_on (nodes_of c ++ seen))
      (visit wto fuel c s1) (visit wto fuel c s2).
Proof.
  induction c as [m|h body IH] using component_ind'; intros fuel seen s1 s2 Hcl E.
  { constructor. by apply visit_vertex_agree. }
  rewrite closed_cycle in Hcl. destruct Hcl as [Hp Hb]. rewrite !visit_cycle.
  rewrite (join_edges_agree_on (is_incoming wto h) h seen s1 s2); [|done|].
  2:{ intros p Hpp Hk. specialize (Hp p Hpp). unfold is_incoming in Hk.
      by destruct (is_back_edge wto h p). }
  apply (cycle_loop_rel wto (agree_on seen)
           (agree_on (nodes_of_seq body ++ h :: seen))).
  - intros v t1 t2 Et. apply visit_seq_agree; [|done|by apply agree_on_head].
    eapply Forall_impl; [exact IH|]. intros c Hc seen' u1 u2. apply Hc.
  - intros t1 t2 Et. unfold candidate.
    rewrite (join_edges_agree_on (is_incoming wto h) h _ t1 t2 bottom Et),
            (join_edges_agree_on (is_back_edge wto h) h _ t1 t2 bottom Et);
      [done| |].
    + intros p Hpp Hk. specialize (Hp p Hpp). rewrite Hk in Hp.
      rewrite elem_of_app. apply elem_of_cons in Hp as [->|Hp]; [right; by left|].
      by left.
    + intros p Hpp Hk. specialize (Hp p Hpp). unfold is_incoming in Hk.
      destruct (is_back_edge wto h p); [done|].
      rewrite elem_of_app. right. by right.
  - intros t1 t2 Et. apply (agree_on_weaken (nodes_of_seq body ++ h :: seen)).
    { intros n Hn. rewrite elem_of_app. right. by right. }
    revert Et. apply agree_on_same; apply after_joins_same.
  - intros t1 t2 np Et. apply agree_on_set_pre.
    apply (agree_on_weaken (nodes_of_seq body ++ h :: seen)).
    { intros n. simpl. rewrite elem_of_cons, !elem_of_app, elem_of_cons.
      unfold nodes_of_seq. tauto. }
    revert Et. apply agree_on_same; apply after_joins_same.
  - revert E. apply agree_on_same; apply collect_same.
Qed.

(** X13: on a WTO in which every read finds a value written earlier in
    the run (the predecessors of a vertex come before it, the
    predecessors of a head are nodes that come before it, the head itself
    or nodes of its body, split as the nesting says), the tables [run]
    starts from do not matter: from any two states the iteration makes
    the same passes, the sinks receive the same calls, and the final
    invariants of the nodes of the WTO are the same.  In particular
    calling [clear] before [run] changes nothing there. *)
Theorem run_ignores_stale_tables fuel init st1 st2 :
  closed_seq wto [] (components wto) →
  option_Forall2
    (λ res1 res2, res1.2 = res2.2
       ∧ ∀ n, n ∈ nodes_of_seq (components wto) →
           pre_of res1.1 n = pre_of res2.1 n ∧ post_of res1.1 n = post_of res2.1 n)
    (run wto fuel init st1) (run wto fuel init st2)
  ∧ option_Forall2
      (λ res1 res2, res1.2 = res2.2
         ∧ ∀ n, n ∈ nodes_of_seq (components wto) →
             pre_of res1.1 n = pre_of res2.1 n ∧ post_of res1.1 n = post_of res2.1 n)
      (run wto fuel init st1) (run wto fuel init (clear st1)).
Proof.
  intros Hcl.
  assert (∀ t1 t2,
    option_Forall2
      (λ res1 res2 : state V Node * list (event V Node), res1.2 = res2.2
         ∧ ∀ n, n ∈ nodes_of_seq (components wto) →
             pre_of res1.1 n = pre_of res2.1 n ∧ post_of res1.1 n = post_of res2.1 n)
      (run wto fuel init t1) (run wto fuel init t2)) as Hrun; [|by split].
  intros t1 t2. rewrite !run_unfold. unfold iterate.
  assert (agree_on [] (set_pre entry init t1) (set_pre entry init t2)) as E0.
  { split; [by rewrite !pre_of_set_pre, !decide_True|].
    intros n Hn. by apply elem_of_nil in Hn. }
  assert (Forall (λ c, ∀ seen s1 s2, closed wto seen c → agree_on seen s1 s2 →
                    option_Forall2 (agree_on (nodes_of c ++ seen))
                      (visit wto fuel c s1) (visit wto fuel c s2))
                 (components wto)) as HF.
  { apply Forall_forall. intros c _ seen s1 s2. apply visit_agree. }
  destruct (visit_seq_agree fuel (components wto) HF [] _ _ Hcl E0)
    as [r1 r2 [_ Er]|]; [|constructor].
  constructor. simpl.
  destruct (process_seq_spec (components wto) [] r1) as [-> P1].
  destruct (process_seq_spec (components wto) [] r2) as [-> P2].
  assert (∀ n, n ∈ nodes_of_seq (components wto) →
            pre_of r1 n = pre_of r2 n ∧ post_of r1 n = post_of r2 n) as Hr.
  { intros n Hn. apply Er. rewrite elem_of_app. by left. }
  split.
  - simpl. by apply sink_calls_agree.
  - intros n Hn. destruct (P1 n) as [-> ->], (P2 n) as [-> ->]. by apply Hr.
Qed.

End Stale.

(** ** The properties above on the example analyses *)

(** Writes to two nodes of an empty table of bounds. *)
Lemma write_then_read_witness :
  get (D:=ub_domain) (set (∅ : gmap nat ub) 1 (Fin 3)) 1
    = (Fin 3, set (∅ : gmap nat ub) 1 (Fin 3))
  ∧ set (set (∅ : gmap nat ub) 1 (Fin 3)) 2 Inf
      = set (set (∅ : gmap nat ub) 2 Inf) 1 (Fin 3).
Proof.
  destruct (write_then_read (D:=ub_domain) (∅ : gmap nat ub) 1 (Fin 3))
    as (H1 & _ & H3 & _).
  split; [exact H1|]. apply H3. lia.
Defined.

(** A read of a key that is there. *)
Lemma read_inserts_bottom_once_witness :
  (get (D:=ub_domain) (<[1 := Fin 3]> (∅ : gmap nat ub)) 1).2
    = <[1 := Fin 3]> (∅ : gmap nat ub).
Proof.
  apply (proj1 (proj2 (proj2 (proj2
           (read_inserts_bottom_once (D:=ub_domain)
              (<[1 := Fin 3]> (∅ : gmap nat ub)) 1))))).
  apply elem_of_dom. by exists (Fin 3).
Defined.

Section MoreLoopExamples.
#[local] Existing Instance ub_domain.
#[local] Existing Instance loop_graph.

(** The keys after the analysis of the guarded loop from new tables. *)
Lemma run_table_keys_witness :
  ∃ res,
    run (A:=guard_analyzer) loop_wto 4 (Fin 0) fresh = Some res
    ∧ 1 ∈ dom (st_pre res.1)
    ∧ (7 ∈ dom (st_post res.1) → 7 ∈ preds_of_seq (components loop_wto)).
Proof.
  destruct (run (A:=guard_analyzer) loop_wto 4 (Fin 0) fresh) as [res|] eqn:E;
    [|by vm_compute in E].
  exists res. split; [done|].
  destruct (run_table_keys (A:=guard_analyzer) loop_wto 4 (Fin 0) fresh res E 1)
    as [[_ H1] _].
  destruct (run_table_keys (A:=guard_analyzer) loop_wto 4 (Fin 0) fresh res E 7)
    as [_ [H2 _]].
  split.
  - apply H1. right; right. by apply (bool_decide_unpack _).
  - intros H7. destruct (H2 H7) as [Hx|[Hx|Hx]]; [| |done].
    + apply elem_of_dom in Hx as [x Hx]. simpl in Hx. by rewrite lookup_empty in Hx.
    + exfalso. revert Hx. by apply (bool_decide_unpack _).
Defined.

(** A second traversal of the post-processor on the guarded loop. *)
Lemma reads_after_run_are_hits_witness :
  ∃ res,
    run (A:=guard_analyzer) loop_wto 4 (Fin 0) fresh = Some res
    ∧ process_seq (components loop_wto) [] res.1 = (res.2, res.1).
Proof.
  destruct (run (A:=guard_analyzer) loop_wto 4 (Fin 0) fresh) as [res|] eqn:E;
    [|by vm_compute in E].
  exists res. split; [done|].
  exact (proj2 (reads_after_run_are_hits (A:=guard_analyzer) loop_wto 4 (Fin 0)
                  fresh res E)).
Defined.

(** The exit of the guarded loop. *)
Lemma cycle_exit_equation_witness :
  ∃ r i v,
    visit (A:=guard_analyzer) loop_wto 4 (Cycle 1 [Vertex 2])
      (visit_vertex (A:=guard_analyzer) 0 (set_pre 0 (Fin 0) fresh)) = Some r
    ∧ pre_of r 1
        = refine (Analyzer:=guard_analyzer) 1 i v
            (candidate (A:=guard_analyzer) loop_wto 1 r)
    ∧ post_of r 1 = analyze_node (Analyzer:=guard_analyzer) 1 v.
Proof.
  destruct (visit (A:=guard_analyzer) loop_wto 4 (Cycle 1 [Vertex 2])
              (visit_vertex (A:=guard_analyzer) 0 (set_pre 0 (Fin 0) fresh)))
    as [r|] eqn:E; [|by vm_compute in E].
  destruct (cycle_exit_equation (A:=guard_analyzer) loop_wto 4 1 [Vertex 2] _ r E)
    as (i & v & s' & s2 & _ & H1 & _ & _ & H2).
  exists r, i, v. split; [done|]. split; [exact H1|]. apply H2.
  by apply (bool_decide_unpack _).
Defined.

End MoreLoopExamples.

Section MoreLineExamples.
#[local] Existing Instance ub_domain.
#[local] Existing Instance line_graph.

(** On the straight line every node comes after its predecessor. *)
Lemma line_scheduled : scheduled (nodes_of_seq (components line_wto)).
Proof.
  repeat split; intros p Hp; simpl in Hp.
  - by apply elem_of_nil in Hp.
  - apply list_elem_of_singleton in Hp as ->. by apply (bool_decide_unpack _).
  - apply list_elem_of_singleton in Hp as ->. by apply (bool_decide_unpack _).
Qed.

Lemma line_nodup : NoDup (nodes_of_seq (components line_wto)).
Proof. by apply (bool_decide_unpack _). Qed.

(** A node that is not on the straight line. *)
Lemma run_leaves_other_nodes_witness :
  ∃ res,
    run (A:=incr_analyzer) line_wto 0 (Fin 0) fresh = Some res
    ∧ post_of res.1 7 = post_of (fresh : state ub nat) 7.
Proof.
  destruct (run (A:=incr_analyzer) line_wto 0 (Fin 0) fresh) as [res|] eqn:E;
    [|by vm_compute in E].
  exists res. split; [done|].
  apply (run_leaves_other_nodes (A:=incr_analyzer) line_wto 0 (Fin 0) fresh res 7 E).
  by apply (bool_decide_unpack _).
Defined.

(** The equations at the last node of the straight line. *)
Lemma acyclic_run_solves_witness :
  ∃ res,
    run (A:=incr_analyzer) line_wto 0 (Fin 0) fresh = Some res
    ∧ solves (A:=incr_analyzer) (Fin 0) res.1 2.
Proof.
  destruct (acyclic_run_solves (A:=incr_analyzer) line_wto 0 (Fin 0) fresh
              eq_refl line_nodup line_scheduled) as (res & E & Hs).
  exists res. split; [done|]. apply Hs. by apply (bool_decide_unpack _).
Defined.

(** The straight line analysed twice. *)
Lemma acyclic_rerun_same_witness :
  ∃ res res',
    run (A:=incr_analyzer) line_wto 0 (Fin 0) fresh = Some res
    ∧ run (A:=incr_analyzer) line_wto 0 (Fin 0) res.1 = Some res'
    ∧ res'.2 = res.2.
Proof.
  destruct (run (A:=incr_analyzer) line_wto 0 (Fin 0) fresh) as [res|] eqn:E;
    [|by vm_compute in E].
  destruct (acyclic_rerun_same (A:=incr_analyzer) line_wto 0 0 (Fin 0) fresh res
              eq_refl line_nodup line_scheduled E) as (res' & E' & _ & Et).
  by exists res, res'.
Defined.

End MoreLineExamples.

(** Two values of [init] on the node with an edge to itself. *)
Lemma init_unread_without_entry_vertex_witness :
  option_Forall2
    (λ res1 res2 : state ub nat * list (event ub nat),
       res1.2 = res2.2 ∧ same_content (D:=ub_domain) res1.1 res2.1)
    (run (D:=ub_domain) (G:=self_graph) (A:=guard_analyzer) self_wto 1 (Fin 7) fresh)
    (run (D:=ub_domain) (G:=self_graph) (A:=guard_analyzer) self_wto 1 (Fin 3) fresh).
Proof.
  destruct (init_unread_without_entry_vertex (D:=ub_domain) (G:=self_graph)
              (A:=guard_analyzer) self_wto 1 (Fin 7) (Fin 3) fresh)
    as [res1 res2 (Ht & _ & Hs)|]; [apply not_elem_of_nil| |constructor].
  constructor. split; [done|]. apply Hs. by apply (bool_decide_unpack _).
Defined.

(** Reachability on the loop graph with overridden hooks. *)
Lemma run_terminates_with_hooks_witness :
  ∃ fuel res, ∀ fuel', fuel ≤ fuel' →
    run (D:=flag_domain) (G:=loop_graph) (A:=eager_analyzer) loop_wto fuel' true fresh
    = Some res.
Proof.
  apply (run_terminates_with_hooks (D:=flag_domain) (G:=loop_graph)
           (A:=eager_analyzer) loop_wto (strictly_above (D:=flag_domain))
           (λ _ _, False)).
  - apply flag_widening_free.
  - intros a. constructor. by intros b Hb.
  - by intros h i [] [] Hn.
  - by intros h i v new_pre Hn.
Defined.

(** The counter of the sixth pass. *)
Lemma pass_counter_wraps_witness : incr 5 = 6%N.
Proof.
  exact (proj1 (proj2 (pass_counter_wraps (D:=ub_domain) (Node:=nat)
                         (λ _ a, a) (λ _ _ a, a))) 5%N eq_refl).
Defined.

Lemma fresh_all_bottom {V Node : Type} `{Countable Node} {D : AbstractValue V} :
  all_bottom (fresh : state V Node).
Proof. intros n. unfold pre_of, post_of, content. simpl. by rewrite lookup_empty. Qed.

(** The nested loops with an unreachable entry. *)
Lemma bottom_run_one_pass_witness :
  ∃ res,
    run (D:=flag_domain) (G:=nested_graph) (A:=flag_analyzer) nested_wto 1 false fresh
    = Some res
    ∧ all_bottom (D:=flag_domain) res.1.
Proof.
  destruct (bottom_run_one_pass (D:=flag_domain) (G:=nested_graph) (A:=flag_analyzer)
              nested_wto 0 fresh eq_refl eq_refl (λ _, eq_refl) (λ _ _, eq_refl)
              eq_refl (λ _ _, eq_refl) eq_refl fresh_all_bottom)
    as (res & E & Hb & _).
  by exists res.
Defined.

(** Every read of the traversal of {!loop_wto} finds a value written
    earlier. *)
Lemma loop_wto_closed :
  closed_seq (G:=loop_graph) loop_wto [] (components loop_wto).
Proof.
  split; [|split; [split|done]].
  - intros p Hp. by apply elem_of_nil in Hp.
  - intros p Hp. simpl in Hp. apply elem_of_cons in Hp as [->|Hp].
    + by apply (bool_decide_unpack _).
    + apply list_elem_of_singleton in Hp as ->. by apply (bool_decide_unpack _).
  - split; [|done]. intros p Hp. simpl in Hp.
    apply list_elem_of_singleton in Hp as ->. by apply (bool_decide_unpack _).
Qed.

(** The guarded loop from tables that hold a stale post invariant, and
    after [clear]. *)
Lemma run_ignores_stale_tables_witness :
  option_Forall2
    (λ res1 res2 : state ub nat * list (event ub nat),
       res1.2 = res2.2 ∧ pre_of (D:=ub_domain) res1.1 1 = pre_of (D:=ub_domain) res2.1 1)
    (run (D:=ub_domain) (G:=loop_graph) (A:=guard_analyzer) loop_wto 4 (Fin 0)
       (set_post 2 Inf fresh))
    (run (D:=ub_domain) (G:=loop_graph) (A:=guard_analyzer) loop_wto 4 (Fin 0)
       (clear (set_post 2 Inf fresh))).
Proof.
  destruct (proj2 (run_ignores_stale_tables (D:=ub_domain) (G:=loop_graph)
                     (A:=guard_analyzer) loop_wto 4 (Fin 0)
                     (set_post 2 Inf fresh) fresh loop_wto_closed))
    as [res1 res2 [Ht Hn]|]; constructor.
  split; [done|]. apply Hn. by apply (bool_decide_unpack _).
Defined.
